(** * LED matrix frame transport: datagram reassembly and stream framing

    A shallow embedding of the two frame receivers of the repository, of the
    clock helper and of the panel test pattern:

    - [UdpReceiver]: the receive loop of [src/udp_matrix_receiver.cc]
      (chunked datagram reassembly, then render and swap);
    - [MatrixDaemon]: [ReadNBytes] and the accept/serve loops of the TCP
      daemon (positional framing of a byte stream, vertical flip on render);
    - [Clock]: the [NowMicros] helper of the receiver;
    - [PanelTest]: [PanelColor] and [DrawPanels] of the panel test program.

    Bytes are [Byte.byte]; the 16-bit header fields and all [size_t] and
    [int] quantities are [Z]; buffers are lists indexed with stdpp's lookup.
    An out-of-range memory access makes the embedded function return [None],
    so that "does not crash" is a theorem and not an assumption.  What the
    programs do to the LED panel is recorded as a trace of [Event]s. *)

From Stdlib Require Import ZArith Lia.
From Stdlib.Strings Require Import Byte.
From stdpp Require Import base tactics option list list_numbers sets.
From Equations Require Import Equations.
From Equations.Prop Require Import Logic.

#[local] Open Scope Z_scope.

(** ** The display driver boundary *)

(** The calls the receivers make on the rgb_matrix library, in program order:
    [offscreen->SetPixel(x, y, r, g, b)] and [matrix->SwapOnVSync(offscreen)]. *)
Inductive Event : Type :=
  | SetPixel (x y : Z) (r g b : byte)
  | SwapOnVSync.

Definition byte_val (b : byte) : Z := Z.of_N (Byte.to_N b).

(** [memcpy(&dst[offset], src, len)]: defined only when both ranges are inside
    their buffers. *)
Definition memcpy (dst : list byte) (offset : Z) (src : list byte) (len : Z)
  : option (list byte) :=
  if bool_decide (0 ≤ offset ∧ 0 ≤ len ∧ offset + len ≤ Z.of_nat (length dst)
                  ∧ len ≤ Z.of_nat (length src))
  then Some (take (Z.to_nat offset) dst ++ take (Z.to_nat len) src
             ++ drop (Z.to_nat (offset + len)) dst)
  else None.

(** [size_t] arithmetic wraps; the targets have a [size_t] of at least 32 bits
    and the proofs below only use that every value stays under [2^32]. *)
Definition SIZE_BITS : Z := 32.
Definition size_t (z : Z) : Z := z mod 2 ^ SIZE_BITS.

(** Number of [true] entries of a [std::vector<bool>]. *)
Fixpoint popcount (bits : list bool) : Z :=
  match bits with
  | [] => 0
  | b :: bits' => (if b then 1 else 0) + popcount bits'
  end.

Module UdpReceiver.

Definition WIDTH : Z := 256.
Definition HEIGHT : Z := 192.
Definition FRAME_BYTES : Z := WIDTH * HEIGHT * 3.
Definition CHUNK_SIZE : Z := 1024.
Definition HEADER_SIZE : Z := 6.

(** One received packet: the fields of [UdpPacketHeader] after [ntohs], with
    the payload that follows the header in [recv_buf]. *)
Record Chunk : Type := {
  frame_id : Z;
  packet_index : Z;
  total_packets : Z;
  payload : list byte
}.

(** The frame reassembly variables of [main]. *)
Record State : Type := {
  frame_buf : list byte;
  current_frame_id : Z;
  expected_packets : Z;
  got_packet : list bool;
  received_packets : Z
}.

(** State at the first loop iteration. *)
Definition initial_state : State := {|
  frame_buf := replicate (Z.to_nat FRAME_BYTES) x00;
  current_frame_id := 0;
  expected_packets := 0;
  got_packet := [];
  received_packets := 0
|}.

(** The body of [if (hdr.frame_id != current_frame_id)]. *)
Definition new_frame (st : State) (c : Chunk) : State := {|
  frame_buf := replicate (length (frame_buf st)) x00;
  current_frame_id := frame_id c;
  expected_packets := total_packets c;
  got_packet := replicate (Z.to_nat (total_packets c)) false;
  received_packets := 0
|}.

(** The inner [for (x ...)] of the render loop, [n] iterations left.  The
    read pointer [p] is the part of [frame_buf] from [p] to its end, so
    [*p++] takes the head; reading past the end is [None]. *)
Fixpoint render_row (n : nat) (x y : Z) (p : list byte)
  : option (list Event * list byte) :=
  match n with
  | O => Some ([], p)
  | S n' =>
      match p with
      | r :: g :: b :: p =>
          '(evs, p) ← render_row n' (x + 1) y p;
          Some (SetPixel x y r g b :: evs, p)
      | _ => None
      end
  end.

(** The outer [for (y ...)] of the render loop. *)
Fixpoint render_rows (n : nat) (y : Z) (p : list byte)
  : option (list Event) :=
  match n with
  | O => Some []
  | S n' =>
      '(row, p) ← render_row (Z.to_nat WIDTH) 0 y p;
      rest ← render_rows n' (y + 1) p;
      Some (row ++ rest)
  end.

(** Render to the offscreen canvas, then swap it in. *)
Definition present (buf : list byte) : option (list Event) :=
  evs ← render_rows (Z.to_nat HEIGHT) 0 buf;
  Some (evs ++ [SwapOnVSync]).

(** Marking [got_packet[packet_index]] and counting it the first time. *)
Definition mark (st : State) (fb : list byte) (idx : Z) : option State :=
  got ← got_packet st !! Z.to_nat idx;
  if got : bool then
    Some {| frame_buf := fb;
            current_frame_id := current_frame_id st;
            expected_packets := expected_packets st;
            got_packet := got_packet st;
            received_packets := received_packets st |}
  else
    Some {| frame_buf := fb;
            current_frame_id := current_frame_id st;
            expected_packets := expected_packets st;
            got_packet := <[Z.to_nat idx := true]> (got_packet st);
            received_packets := size_t (received_packets st + 1) |}.

(** "New frame?": the state after the [if (hdr.frame_id != current_frame_id)]
    statement. *)
Definition start_frame (st : State) (c : Chunk) : State :=
  if bool_decide (frame_id c ≠ current_frame_id st) then new_frame st c else st.

(** The clamped length given to [memcpy]. *)
Definition copy_length (offset payload_len : Z) : Z :=
  if bool_decide (size_t (offset + payload_len) > FRAME_BYTES)
  then size_t (FRAME_BYTES - offset) else payload_len.

(** One loop iteration from "New frame?" to the end of the body, for a
    datagram that passed the two length checks.  [Some (st', evs)] is the
    state at the next iteration and the driver calls made; every [continue]
    is a [Some (_, [])]. *)
Definition offer (st : State) (c : Chunk) : option (State * list Event) :=
  let st := start_frame st c in
  if bool_decide (packet_index c >= expected_packets st) then Some (st, [])
  else
    let offset := size_t (packet_index c * CHUNK_SIZE) in
    if bool_decide (offset >= FRAME_BYTES) then Some (st, [])
    else
      let copy_len := copy_length offset (Z.of_nat (length (payload c))) in
      fb ← memcpy (frame_buf st) offset (payload c) copy_len;
      st ← mark st fb (packet_index c);
      if bool_decide (received_packets st = expected_packets st)
      then evs ← present (frame_buf st); Some (st, evs)
      else Some (st, []).

(** What [recv] returned: an error, or the bytes of one datagram. *)
Inductive recv_result : Type :=
  | recv_failed
  | recv_datagram (d : list byte).

(** [recv(sock, recv_buf.data(), recv_buf.size(), 0)]: the return value and
    the new contents of [recv_buf]; a longer datagram is cut to the buffer. *)
Definition recv (recv_buf : list byte) (r : recv_result) : Z * list byte :=
  match r with
  | recv_failed => (-1, recv_buf)
  | recv_datagram d =>
      let d' := take (length recv_buf) d in
      (Z.of_nat (length d'), d' ++ drop (length d') recv_buf)
  end.

(** Two bytes at [recv_buf[i]] read as a big-endian 16-bit number
    ([memcpy] then [ntohs]). *)
Definition ntohs_at (recv_buf : list byte) (i : nat) : option Z :=
  hi ← recv_buf !! i;
  lo ← recv_buf !! S i;
  Some (256 * byte_val hi + byte_val lo).

(** The top of the loop body: receive, the two length checks and the header.
    [Some None] is a [continue]. *)
Definition receive_chunk (recv_buf : list byte) (r : recv_result)
  : option (list byte * option Chunk) :=
  let '(n, recv_buf) := recv recv_buf r in
  if bool_decide (n < HEADER_SIZE) then Some (recv_buf, None)
  else
    fid ← ntohs_at recv_buf 0;
    idx ← ntohs_at recv_buf 2;
    tot ← ntohs_at recv_buf 4;
    let payload_len := size_t (n - HEADER_SIZE) in
    if bool_decide (payload_len > CHUNK_SIZE) then Some (recv_buf, None)
    else
      Some (recv_buf,
            Some {| frame_id := fid; packet_index := idx; total_packets := tot;
                    payload := take (Z.to_nat payload_len)
                                 (drop (Z.to_nat HEADER_SIZE) recv_buf) |}).

(** One full iteration of [while (!interrupt_received)]. *)
Definition iteration (recv_buf : list byte) (st : State) (r : recv_result)
  : option (list byte * State * list Event) :=
  '(recv_buf, oc) ← receive_chunk recv_buf r;
  match oc with
  | None => Some (recv_buf, st, [])
  | Some c => '(st', evs) ← offer st c; Some (recv_buf, st', evs)
  end.

(** The loop over the datagrams that arrive before the interrupt. *)
Fixpoint run (recv_buf : list byte) (st : State) (rs : list recv_result)
  : option (list byte * State * list Event) :=
  match rs with
  | [] => Some (recv_buf, st, [])
  | r :: rs' =>
      '(recv_buf, st, evs) ← iteration recv_buf st r;
      '(recv_buf, st, evs') ← run recv_buf st rs';
      Some (recv_buf, st, evs ++ evs')
  end.

(** Offering a sequence of chunks, collecting the driver calls. *)
Fixpoint offer_all (st : State) (cs : list Chunk)
  : option (State * list Event) :=
  match cs with
  | [] => Some (st, [])
  | c :: cs' =>
      '(st, evs) ← offer st c;
      '(st, evs') ← offer_all st cs';
      Some (st, evs ++ evs')
  end.

Definition initial_recv_buf : list byte :=
  replicate (Z.to_nat (HEADER_SIZE + CHUNK_SIZE)) x00.

(** *** Vocabulary of the statements about the receiver *)

(** Range of a [uint16_t]. *)
Definition uint16 (z : Z) : Prop := 0 ≤ z < 65536.

(** The chunks the loop can offer: header fields are 16-bit and the payload
    passed the [payload_len > CHUNK_SIZE] check. *)
Record wf_chunk (c : Chunk) : Prop := {
  wf_frame_id : uint16 (frame_id c);
  wf_packet_index : uint16 (packet_index c);
  wf_total_packets : uint16 (total_packets c);
  wf_payload : Z.of_nat (length (payload c)) ≤ CHUNK_SIZE
}.

(** What holds of the reassembly variables at every loop iteration. *)
Record Inv (st : State) : Prop := {
  inv_frame_buf : Z.of_nat (length (frame_buf st)) = FRAME_BYTES;
  inv_frame_id : uint16 (current_frame_id st);
  inv_expected : uint16 (expected_packets st);
  inv_got_packet : Z.of_nat (length (got_packet st)) = expected_packets st;
  inv_received : received_packets st = popcount (got_packet st)
}.

(** The state after a chunk that passed both range checks was copied in,
    marked and counted. *)
Definition store (st : State) (c : Chunk) : State :=
  let offset := Z.to_nat (packet_index c * CHUNK_SIZE) in
  let i := Z.to_nat (packet_index c) in
  {| frame_buf := take offset (frame_buf st) ++ payload c
                  ++ drop (offset + length (payload c)) (frame_buf st);
     current_frame_id := current_frame_id st;
     expected_packets := expected_packets st;
     got_packet := <[i := true]> (got_packet st);
     received_packets :=
       if bool_decide (got_packet st !! i = Some false)
       then received_packets st + 1 else received_packets st |}.

(** The chunk one [recv] result leads to, if it passes the length checks. *)
Definition decode (r : recv_result) : option Chunk :=
  match receive_chunk initial_recv_buf r with
  | Some (_, oc) => oc
  | None => None
  end.

(** [recv_buf] keeps its size. *)
Definition recv_buf_ok (recv_buf : list byte) : Prop :=
  Z.of_nat (length recv_buf) = HEADER_SIZE + CHUNK_SIZE.

(** The chunks offered since the frame id last changed: arrival history of
    the frame being assembled. *)
Definition extend_run (run : list Chunk) (c : Chunk) : list Chunk :=
  match run with
  | c0 :: _ => if bool_decide (frame_id c = frame_id c0) then run ++ [c] else [c]
  | [] => [c]
  end.

Definition current_run (cs : list Chunk) : list Chunk := foldl extend_run [] cs.

(** How the state relates to that history: marked chunks did arrive, and
    the expected count is the one the frame's first chunk announced. *)
Record Ghost (st : State) (run : list Chunk) : Prop := {
  ghost_id : ∀ c, c ∈ run → frame_id c = current_frame_id st;
  ghost_got : ∀ i, got_packet st !! i = Some true →
                   ∃ c, c ∈ run ∧ packet_index c = Z.of_nat i;
  ghost_expected : 0 < expected_packets st →
                   ∃ c0, head run = Some c0 ∧ expected_packets st = total_packets c0
}.

(** A sender's view: a frame cut into [chunks_per_frame] chunks of
    [CHUNK_SIZE] bytes, chunk [i] carrying the bytes at [i * CHUNK_SIZE]. *)
Definition chunks_per_frame : Z := FRAME_BYTES / CHUNK_SIZE.

Definition chunk_of (frame : list byte) (fid i : Z) : Chunk := {|
  frame_id := fid;
  packet_index := i;
  total_packets := chunks_per_frame;
  payload := take (Z.to_nat CHUNK_SIZE) (drop (Z.to_nat (i * CHUNK_SIZE)) frame)
|}.

(** What is known while the chunks of [frame] arrive: the chunks [seen] so
    far are marked and their byte ranges hold the frame's bytes. *)
Record Assembling (frame : list byte) (fid : Z) (seen : list Z) (st : State)
  : Prop := {
  asm_inv : Inv st;
  asm_id : current_frame_id st = fid;
  asm_expected : expected_packets st = chunks_per_frame;
  asm_bytes : ∀ k : nat, Z.of_nat k / CHUNK_SIZE ∈ seen →
                         frame_buf st !! k = frame !! k;
  asm_got : ∀ i, i ∈ seen → got_packet st !! Z.to_nat i = Some true
}.

(** The small part of a result that the examples below compare: frame id,
    expected count, bitmap, received count, the first four bytes of the
    frame buffer and the number of driver calls. *)
Definition observe (r : option (State * list Event))
  : option (Z * Z * list bool * Z * list byte * Z) :=
  '(st, evs) ← r;
  Some (current_frame_id st, expected_packets st, got_packet st,
        received_packets st, take 4 (frame_buf st), Z.of_nat (length evs)).

(** The state the loop is in after the given chunks. *)
Definition state_after (cs : list Chunk) : State :=
  match offer_all initial_state cs with
  | Some (st, _) => st
  | None => initial_state
  end.

(** Example data: two-chunk frames with ids 1 and 2, a chunk whose index is
    out of range, a full frame sent reordered with duplicates, and a frame
    sent with id 0. *)
Definition f1_c0 : Chunk :=
  {| frame_id := 1; packet_index := 0; total_packets := 2; payload := [x11] |}.
Definition f1_c1 : Chunk :=
  {| frame_id := 1; packet_index := 1; total_packets := 2; payload := [x12] |}.
Definition f2_c0 : Chunk :=
  {| frame_id := 2; packet_index := 0; total_packets := 2; payload := [x21] |}.
Definition f2_c1 : Chunk :=
  {| frame_id := 2; packet_index := 1; total_packets := 2; payload := [x22] |}.
Definition f2_bad : Chunk :=
  {| frame_id := 2; packet_index := 5; total_packets := 2; payload := [xaa] |}.
Definition demo_frame : list byte := replicate (Z.to_nat FRAME_BYTES) x2a.
Definition demo_order : list Z := [143; 7; 7] ++ seqZ 0 143.
Definition frame_ff : list byte := replicate (Z.to_nat FRAME_BYTES) xff.
Definition id0_datagrams : list recv_result :=
  [ recv_datagram [x00; x00; x00; x00; x00; x90; xde; xad];
    recv_failed;
    recv_datagram [x00; x00; x00; x01] ].

(** *** Vocabulary of the further properties of the receiver *)

(** Only chunks whose offset is inside the frame buffer are ever marked. *)
Definition Marked (st : State) : Prop :=
  ∀ i : nat, got_packet st !! i = Some true → Z.of_nat i < chunks_per_frame.

(** The state after a chunk whose frame id is the current one: stored when
    it passes the two range checks, dropped otherwise. *)
Definition merge (st : State) (c : Chunk) : State :=
  if bool_decide (packet_index c < expected_packets st
                  ∧ packet_index c * CHUNK_SIZE < FRAME_BYTES)
  then store st c else st.

End UdpReceiver.

Module MatrixDaemon.

Definition LOGICAL_WIDTH : Z := 256.
Definition LOGICAL_HEIGHT : Z := 192.
Definition expected_size : Z := LOGICAL_WIDTH * LOGICAL_HEIGHT * 3.

(** What a connected client socket still has to deliver: the byte stream cut
    into the pieces in which it arrives, and read errors.  The end of the
    list is the orderly shutdown of the peer. *)
Inductive segment : Type :=
  | Data (bytes : list byte)
  | Error.

Definition socket : Type := list segment.

(** [recv(fd, p, want, 0)]: the return value, the bytes stored at [p] and the
    socket afterwards.  At most [want] bytes of the first piece are taken and
    the rest of it stays queued; at the end of the stream [recv] returns 0. *)
Definition recv (fd : socket) (want : Z) : Z * list byte * socket :=
  match fd with
  | [] => (0, [], [])
  | Error :: fd' => (-1, [], fd')
  | Data bytes :: fd' =>
      if bool_decide (Z.of_nat (length bytes) ≤ want)
      then (Z.of_nat (length bytes), bytes, fd')
      else (want, take (Z.to_nat want) bytes,
            Data (drop (Z.to_nat want) bytes) :: fd')
  end.

(** Bytes still queued in a socket. *)
Fixpoint socket_bytes (fd : socket) : nat :=
  match fd with
  | [] => O
  | Data bytes :: fd' => (length bytes + socket_bytes fd')%nat
  | Error :: fd' => socket_bytes fd'
  end.

(** A [recv] that returned a positive count took bytes out of the socket;
    the loops below terminate because of that. *)
Lemma recv_consumes fd want got data fd' :
  recv fd want = (got, data, fd') → ¬ got ≤ 0 →
  (socket_bytes fd' < socket_bytes fd)%nat.
Proof.
  destruct fd as [|[bytes|] fd0]; simpl; intros Hr Hgot.
  - injection Hr as <- _ _. lia.
  - case_bool_decide; injection Hr as <- _ <-; simpl.
    + lia.
    + rewrite length_drop. lia.
  - injection Hr as <- _ _. lia.
Qed.

(** The [while (total < n)] loop of [ReadNBytes]: [Some (ok, buf, fd)] is the
    return value with the buffer and the socket as the call leaves them. *)
Equations? ReadNBytes_loop (fd : socket) (buf : list byte) (n total : Z)
  : option (bool * list byte * socket) by wf (socket_bytes fd) lt :=
  ReadNBytes_loop fd buf n total with bool_decide (total < n) := {
    | false => Some (true, buf, fd)
    | true with inspect (recv fd (size_t (n - total))) := {
      | exist _ (got, data, fd') Hrecv with inspect (bool_decide (got ≤ 0)) := {
        | exist _ true _ => Some (false, buf, fd')
        | exist _ false Hgot with memcpy buf total data got := {
          | None => None
          | Some buf' => ReadNBytes_loop fd' buf' n (size_t (total + got)) } } } }.
Proof.
  eapply recv_consumes; [exact Hrecv|].
  by apply bool_decide_eq_false in Hgot.
Qed.

Definition ReadNBytes (fd : socket) (buf : list byte) (n : Z)
  : option (bool * list byte * socket) :=
  ReadNBytes_loop fd buf n 0.

(** The inner [for (X ...)] of the drawing loop, [n] iterations left. *)
Fixpoint draw_row (n : nat) (X Y idx : Z) (buffer : list byte)
  : option (list Event * Z) :=
  match n with
  | O => Some ([], idx)
  | S n' =>
      r ← buffer !! Z.to_nat idx;
      g ← buffer !! Z.to_nat (idx + 1);
      b ← buffer !! Z.to_nat (idx + 2);
      '(evs, idx) ← draw_row n' (X + 1) Y (idx + 3) buffer;
      Some (SetPixel X Y r g b :: evs, idx)
  end.

(** The outer [for (y_buf ...)] of the drawing loop. *)
Fixpoint draw_rows (n : nat) (y_buf idx : Z) (buffer : list byte)
  : option (list Event) :=
  match n with
  | O => Some []
  | S n' =>
      let Y := LOGICAL_HEIGHT - 1 - y_buf in
      '(row, idx) ← draw_row (Z.to_nat LOGICAL_WIDTH) 0 Y idx buffer;
      rest ← draw_rows n' (y_buf + 1) idx buffer;
      Some (row ++ rest)
  end.

(** Drawing one received frame and swapping it in. *)
Definition present (buffer : list byte) : option (list Event) :=
  evs ← draw_rows (Z.to_nat LOGICAL_HEIGHT) 0 0 buffer;
  Some (evs ++ [SwapOnVSync]).

(** The loop of [ReadNBytes] written as the source has it. *)
Lemma ReadNBytes_loop_eq fd buf n total :
  ReadNBytes_loop fd buf n total =
  if bool_decide (total < n) then
    let '(got, data, fd') := recv fd (size_t (n - total)) in
    if bool_decide (got ≤ 0) then Some (false, buf, fd')
    else buf' ← memcpy buf total data got;
         ReadNBytes_loop fd' buf' n (size_t (total + got))
  else Some (true, buf, fd).
Proof.
  funelim (ReadNBytes_loop fd buf n total);
    rewrite ?Heq, ?Heq0, ?Hrecv, ?e, ?Hgot; simpl; try done.
  all: rewrite Heq; simpl; done.
Qed.

(** Induction on the number of bytes queued in a socket. *)
Lemma socket_ind (P : socket → Prop) :
  (∀ fd, (∀ fd', (socket_bytes fd' < socket_bytes fd)%nat → P fd') → P fd) →
  ∀ fd, P fd.
Proof.
  intros H fd.
  induction fd as [fd IH] using (well_founded_induction
    (Wf_nat.well_founded_ltof _ socket_bytes)).
  by apply H.
Qed.

(** A successful [ReadNBytes] of a positive count took bytes out of the
    socket; this is what makes the serving loop terminate. *)
Lemma ReadNBytes_loop_consumes fd buf n total buf' fd' :
  ReadNBytes_loop fd buf n total = Some (true, buf', fd') → total < n →
  (socket_bytes fd' < socket_bytes fd)%nat.
Proof.
  revert buf total. induction fd as [fd IH] using socket_ind.
  intros buf total. rewrite ReadNBytes_loop_eq.
  intros Hres Hlt. rewrite bool_decide_eq_true_2 in Hres by done.
  destruct (recv fd (size_t (n - total))) as [[got data] fd1] eqn:Hrecv.
  case_bool_decide as Hgot; [done|].
  pose proof (recv_consumes _ _ _ _ _ Hrecv Hgot) as Hstep.
  destruct (memcpy buf total data got) as [buf1|]; [simpl in Hres|done].
  destruct (decide (size_t (total + got) < n)) as [Hlt'|Hge].
  - etrans; [|exact Hstep]. by eapply IH.
  - rewrite ReadNBytes_loop_eq, bool_decide_eq_false_2 in Hres by done.
    inversion Hres; subst. exact Hstep.
Qed.

(** The [while (!interrupt_received)] loop that serves one client, taken for
    an interrupt that does not arrive while the client is connected: it ends
    at the disconnect, with [close(client); break].  [Some (evs, buffer)] is
    the driver calls made and the static [buffer] as the loop leaves it. *)
Equations? serve_client (fd : socket) (buffer : list byte)
  : option (list Event * list byte) by wf (socket_bytes fd) lt :=
  serve_client fd buffer with inspect (ReadNBytes fd buffer expected_size) := {
    | exist _ None _ => None
    | exist _ (Some (false, buffer', _)) _ => Some ([], buffer')
    | exist _ (Some (true, buffer', fd')) Hread with present buffer' := {
      | None => None
      | Some evs with serve_client fd' buffer' := {
        | None => None
        | Some (rest, buffer'') => Some (evs ++ rest, buffer'') } } }.
Proof.
  eapply ReadNBytes_loop_consumes; [exact Hread|done].
Qed.

(** What [accept] returned. *)
Inductive accept_result : Type :=
  | accept_failed
  | accept_client (fd : socket).

(** The accept loop, over the results of [accept] up to the interrupt. *)
Fixpoint accept_loop (conns : list accept_result) (buffer : list byte)
  : option (list Event * list byte) :=
  match conns with
  | [] => Some ([], buffer)
  | accept_failed :: conns' => accept_loop conns' buffer
  | accept_client fd :: conns' =>
      '(evs, buffer) ← serve_client fd buffer;
      '(evs', buffer) ← accept_loop conns' buffer;
      Some (evs ++ evs', buffer)
  end.

(** [static uint8_t buffer[...]] is zero-initialised. *)
Definition initial_buffer : list byte :=
  replicate (Z.to_nat expected_size) x00.

(** *** Vocabulary of the statements about the daemon *)

(** The bytes a socket delivers before the first read that returns 0 or
    fails. *)
Fixpoint readable (fd : socket) : list byte :=
  match fd with
  | Data (b :: bytes) :: fd' => (b :: bytes) ++ readable fd'
  | _ => []
  end.

(** The first [k] consecutive [expected_size]-byte slices of a stream. *)
Fixpoint slices (k : nat) (stream : list byte) : list (list byte) :=
  match k with
  | O => []
  | S k' => take (Z.to_nat expected_size) stream
            :: slices k' (drop (Z.to_nat expected_size) stream)
  end.

(** The complete frames of a stream; a shorter remainder is not one. *)
Definition full_slices (stream : list byte) : list (list byte) :=
  slices (length stream / Z.to_nat expected_size) stream.

(** The driver calls for one frame, when it is in range. *)
Definition shown (frame : list byte) : list Event := default [] (present frame).

(** The byte at [buffer[idx]]. *)
Definition byte_at (buffer : list byte) (idx : Z) : byte :=
  default x00 (buffer !! Z.to_nat idx).

(** The call that draws the pixel stored at [buffer[idx .. idx+2]]. *)
Definition pixel (buffer : list byte) (X Y idx : Z) : Event :=
  SetPixel X Y (byte_at buffer idx) (byte_at buffer (idx + 1))
           (byte_at buffer (idx + 2)).

(** Number of buffer swaps in a trace, that is, of frames presented. *)
Fixpoint swaps (evs : list Event) : nat :=
  match evs with
  | [] => O
  | SwapOnVSync :: evs' => S (swaps evs')
  | SetPixel _ _ _ _ _ :: evs' => swaps evs'
  end.

(** The next [recv] on the socket returns 0 or fails: the stream has ended,
    a read error is pending, or a read delivers no bytes. *)
Definition disconnects (fd : socket) : Prop :=
  match fd with
  | [] | Error :: _ | Data [] :: _ => True
  | Data (_ :: _) :: _ => False
  end.

(** Example data: two frames, all [A] then all [B], arriving in three pieces
    that do not end on the frame boundary. *)
Definition demo_pieces : list (list byte) :=
  [ x41 :: replicate (Z.to_nat 99999) x41;
    x41 :: replicate (Z.to_nat 47455) x41 ++ [x42; x42];
    x42 :: replicate (Z.to_nat 147453) x42 ].

(** *** Vocabulary of the further properties of the daemon *)

(** A driver call with its row mirrored top to bottom. *)
Definition flip_y (e : Event) : Event :=
  match e with
  | SetPixel x y r g b => SetPixel x (LOGICAL_HEIGHT - 1 - y) r g b
  | SwapOnVSync => SwapOnVSync
  end.

(** The complete frames of the clients served, in the order of the
    connections; a failed [accept] has none. *)
Fixpoint frames_of (conns : list accept_result) : list (list byte) :=
  match conns with
  | [] => []
  | accept_failed :: conns' => frames_of conns'
  | accept_client fd :: conns' => full_slices (readable fd) ++ frames_of conns'
  end.

End MatrixDaemon.

(** ** The clock helper and the panel test pattern *)

(** [NowMicros] of [src/udp_matrix_receiver.cc]. *)
Module Clock.

(** [struct timeval] as [gettimeofday] fills it. *)
Record timeval : Type := { tv_sec : Z; tv_usec : Z }.

Definition uint64_t (z : Z) : Z := z mod 2 ^ 64.

(** [NowMicros], as a function of the [timeval] read from the clock: the
    seconds are cast to [uint64_t], the product and the sum wrap. *)
Definition NowMicros (tv : timeval) : Z :=
  uint64_t (uint64_t (uint64_t (tv_sec tv) * 1000000) + uint64_t (tv_usec tv)).

(** A time of day as the clock reports it: microseconds below one second,
    and a count of seconds whose microseconds fit 64 bits. *)
Definition normal (tv : timeval) : Prop :=
  0 ≤ tv_sec tv ∧ 0 ≤ tv_usec tv < 1000000
  ∧ tv_sec tv * 1000000 + tv_usec tv < 2 ^ 64.

(** Earlier on the clock. *)
Definition before (tv1 tv2 : timeval) : Prop :=
  tv_sec tv1 < tv_sec tv2
  ∨ (tv_sec tv1 = tv_sec tv2 ∧ tv_usec tv1 < tv_usec tv2).

End Clock.

(** [PanelColor] and [DrawPanels] of the panel test program. *)
Module PanelTest.

(** The calls [DrawPanels] makes on the canvas: [canvas->Fill(r, g, b)] and
    [canvas->SetPixel(x, y, r, g, b)]. *)
Inductive CanvasCall : Type :=
  | CanvasFill (r g b : Z)
  | CanvasSetPixel (x y : Z) (r g b : Z).

(** [PanelColor(idx, r, g, b)]: the three bytes it stores. *)
Definition PanelColor (idx : Z) : Z * Z * Z :=
  match idx with
  | 0 => (255, 0, 0)
  | 1 => (0, 255, 0)
  | 2 => (0, 0, 255)
  | 3 => (255, 255, 0)
  | 4 => (255, 0, 255)
  | 5 => (0, 255, 255)
  | 6 => (255, 128, 0)
  | 7 => (128, 0, 255)
  | 8 => (128, 128, 128)
  | 9 => (255, 255, 255)
  | 10 => (128, 255, 0)
  | 11 => (0, 128, 255)
  | _ => (0, 0, 0)
  end.

(** [for (int i = start; i < start + n; ++i) body]: the calls of the
    iterations, in order. *)
Fixpoint for_loop (n : nat) (i : Z) (body : Z → list CanvasCall)
  : list CanvasCall :=
  match n with
  | O => []
  | S n' => body i ++ for_loop n' (i + 1) body
  end.

Definition panel_w : Z := 64.
Definition panel_h : Z := 64.
Definition grid_cols : Z := 4.
Definition grid_rows : Z := 3.

(** The drawing part of [DrawPanels], up to the wait for the interrupt. *)
Definition DrawPanels : list CanvasCall :=
  CanvasFill 0 0 0
  :: for_loop (Z.to_nat grid_rows) 0 (λ row,
       for_loop (Z.to_nat grid_cols) 0 (λ col,
         let idx := row * grid_cols + col in
         let '(r, g, b) := PanelColor 2 in
         let x0 := col * panel_w in
         let y0 := row * panel_h in
         for_loop (Z.to_nat panel_h) 0 (λ y,
           for_loop (Z.to_nat panel_w) 0 (λ x,
             [CanvasSetPixel (x0 + x) (y0 + y) r g b])))).

End PanelTest.

(** ** Facts about the shared helpers *)

Ltac by_compute :=
  vm_compute; repeat split; first [reflexivity | discriminate | exact I].

Lemma size_t_small z : 0 ≤ z < 2 ^ 32 → size_t z = z.
Proof. intros H. unfold size_t, SIZE_BITS. by apply Z.mod_small. Qed.

Lemma memcpy_Some dst offset src len :
  0 ≤ offset → 0 ≤ len → offset + len ≤ Z.of_nat (length dst) →
  len ≤ Z.of_nat (length src) →
  memcpy dst offset src len =
    Some (take (Z.to_nat offset) dst ++ take (Z.to_nat len) src
          ++ drop (Z.to_nat (offset + len)) dst).
Proof. intros. unfold memcpy. by rewrite bool_decide_eq_true_2. Qed.

Lemma popcount_bounds bits : 0 ≤ popcount bits ≤ Z.of_nat (length bits).
Proof. induction bits as [|[] bits IH]; simpl; lia. Qed.

Lemma popcount_replicate_false n : popcount (replicate n false) = 0.
Proof. induction n; simpl; lia. Qed.

Lemma popcount_insert_true bits i :
  bits !! i = Some false → popcount (<[i:=true]> bits) = popcount bits + 1.
Proof.
  revert i. induction bits as [|b bits IH]; intros [|i]; simpl; try done.
  - intros [= ->]. lia.
  - intros H. rewrite (IH _ H). lia.
Qed.

(** A full count means that every entry is set. *)
Lemma popcount_full bits :
  popcount bits = Z.of_nat (length bits) ↔ ∀ i b, bits !! i = Some b → b = true.
Proof.
  induction bits as [|b bits IH]; simpl.
  - split; [by intros _ i b|done].
  - pose proof (popcount_bounds bits). split.
    + intros H' [|i] b'; simpl.
      * intros [= <-]. destruct b; [done|lia].
      * apply IH. destruct b; lia.
    + intros H'. rewrite (H' O b eq_refl).
      enough (popcount bits = Z.of_nat (length bits)) by lia.
      apply IH. intros i b'. apply (H' (S i)).
Qed.

(** ** The datagram receiver *)

Module UdpReceiverProofs.
Import UdpReceiver.

#[local] Arguments FRAME_BYTES : simpl never.
#[local] Arguments CHUNK_SIZE : simpl never.
#[local] Arguments HEADER_SIZE : simpl never.
#[local] Arguments WIDTH : simpl never.
#[local] Arguments HEIGHT : simpl never.
#[local] Arguments chunks_per_frame : simpl never.

(** *** The constants *)

Lemma FRAME_BYTES_chunks : FRAME_BYTES = 144 * CHUNK_SIZE.
Proof. reflexivity. Qed.

Lemma CHUNK_SIZE_val : CHUNK_SIZE = 1024.
Proof. reflexivity. Qed.

(** *** The loop invariant *)

Lemma Inv_initial_state : Inv initial_state.
Proof.
  split.
  - unfold initial_state; cbn [frame_buf]. rewrite length_replicate.
    by rewrite Z2Nat.id.
  - done.
  - done.
  - done.
  - done.
Qed.

Lemma Inv_new_frame st c : Inv st → wf_chunk c → Inv (new_frame st c).
Proof.
  intros [] []. split; simpl; try done.
  - by rewrite length_replicate.
  - rewrite length_replicate. unfold uint16 in *. lia.
  - by rewrite popcount_replicate_false.
Qed.

Lemma Inv_start_frame st c : Inv st → wf_chunk c → Inv (start_frame st c).
Proof.
  intros. unfold start_frame. case_bool_decide; [by apply Inv_new_frame|done].
Qed.

Lemma start_frame_current st c :
  current_frame_id (start_frame st c) = frame_id c.
Proof.
  unfold start_frame. by case_bool_decide.
Qed.

(** An in-range chunk never needs the clamp: the frame is a whole number of
    chunks. *)
Lemma copy_length_in_range idx len :
  0 ≤ idx → idx * CHUNK_SIZE < FRAME_BYTES → 0 ≤ len ≤ CHUNK_SIZE →
  copy_length (idx * CHUNK_SIZE) len = len
  ∧ idx * CHUNK_SIZE + len ≤ FRAME_BYTES.
Proof.
  rewrite FRAME_BYTES_chunks, CHUNK_SIZE_val. intros ? ? ?.
  assert (idx * 1024 + len ≤ 144 * 1024) by lia. split; [|done].
  unfold copy_length. rewrite FRAME_BYTES_chunks, CHUNK_SIZE_val.
  rewrite size_t_small by lia. by rewrite bool_decide_eq_false_2 by lia.
Qed.

(** *** Rendering stays inside the frame buffer *)

Lemma render_row_Some n x y p :
  (3 * n ≤ length p)%nat →
  ∃ evs, render_row n x y p = Some (evs, drop (3 * n) p).
Proof.
  revert x p. induction n as [|n IH]; intros x p Hlen.
  - eexists. simpl. by rewrite drop_0.
  - destruct p as [|r [|g [|b p]]]; cbn [length] in Hlen; try lia.
    destruct (IH (x + 1) p) as [evs Hevs]; [lia|].
    exists (SetPixel x y r g b :: evs). cbn [render_row]. rewrite Hevs.
    replace (3 * S n)%nat with (3 + 3 * n)%nat by lia.
    by rewrite <- drop_drop.
Qed.

Lemma render_rows_Some n y p :
  (3 * Z.to_nat WIDTH * n ≤ length p)%nat → is_Some (render_rows n y p).
Proof.
  revert y p. induction n as [|n IH]; intros y p Hlen; [by eexists|].
  cbn [render_rows].
  destruct (render_row_Some (Z.to_nat WIDTH) 0 y p) as [row ->]; [lia|].
  cbn [mbind option_bind].
  destruct (IH (y + 1) (drop (3 * Z.to_nat WIDTH) p)) as [rest ->].
  { rewrite length_drop. lia. }
  by eexists.
Qed.

Lemma present_Some buf :
  Z.of_nat (length buf) = FRAME_BYTES → is_Some (present buf).
Proof.
  intros Hlen. unfold present.
  destruct (render_rows_Some (Z.to_nat HEIGHT) 0 buf) as [evs ->]; [|by eexists].
  unfold FRAME_BYTES in Hlen.
  assert (0 ≤ WIDTH) by done. assert (0 ≤ HEIGHT) by done. nia.
Qed.

(** *** One offered chunk *)

Lemma offset_no_wrap idx : uint16 idx → size_t (idx * CHUNK_SIZE) = idx * CHUNK_SIZE.
Proof.
  unfold uint16. intros. rewrite CHUNK_SIZE_val. apply size_t_small. lia.
Qed.

(** The two [continue] statements after "New frame?". *)
Lemma offer_dropped st c :
  wf_chunk c →
  packet_index c >= expected_packets (start_frame st c)
  ∨ packet_index c * CHUNK_SIZE >= FRAME_BYTES →
  offer st c = Some (start_frame st c, []).
Proof.
  intros Hc Hdrop. unfold offer. cbv zeta.
  case_bool_decide; [done|].
  rewrite offset_no_wrap by apply Hc.
  rewrite bool_decide_eq_true_2; [done|]. lia.
Qed.

Lemma store_frame_buf_length st c :
  Z.of_nat (length (frame_buf st)) = FRAME_BYTES →
  wf_chunk c → packet_index c * CHUNK_SIZE < FRAME_BYTES →
  length (frame_buf (store st c)) = length (frame_buf st).
Proof.
  intros Hlen Hc Hoff.
  destruct (copy_length_in_range (packet_index c)
              (Z.of_nat (length (payload c)))) as [_ Hend];
    [apply Hc|done|split; [lia|apply Hc]|].
  pose proof (wf_packet_index _ Hc) as [? _].
  unfold store; cbn [frame_buf].
  rewrite !length_app, length_take, length_drop.
  rewrite CHUNK_SIZE_val in *. lia.
Qed.

Lemma Inv_store st c :
  Inv st → wf_chunk c →
  packet_index c < expected_packets st →
  packet_index c * CHUNK_SIZE < FRAME_BYTES →
  Inv (store st c).
Proof.
  intros Hst Hc Hidx Hoff. pose proof Hst as [Hlen Hid Hexp Hgot Hrecv].
  pose proof (wf_packet_index _ Hc) as [? _].
  split.
  - rewrite store_frame_buf_length by done. done.
  - done.
  - done.
  - unfold store; cbn [got_packet expected_packets]. by rewrite length_insert.
  - unfold store; cbn [got_packet received_packets].
    destruct (got_packet st !! Z.to_nat (packet_index c)) as [[]|] eqn:Hi.
    + rewrite bool_decide_eq_false_2 by done. by rewrite list_insert_id.
    + rewrite bool_decide_eq_true_2 by done.
      rewrite popcount_insert_true by done. lia.
    + apply lookup_ge_None in Hi. lia.
Qed.

(** A chunk that passes both range checks is copied, marked and counted. *)
Lemma offer_stored st c :
  Inv st → wf_chunk c →
  packet_index c < expected_packets (start_frame st c) →
  packet_index c * CHUNK_SIZE < FRAME_BYTES →
  let st' := store (start_frame st c) c in
  ∃ evs, offer st c = Some (st', evs)
    ∧ if bool_decide (received_packets st' = expected_packets st')
      then present (frame_buf st') = Some evs else evs = [].
Proof.
  intros Hst Hc Hidx Hoff st'.
  pose proof (Inv_start_frame _ _ Hst Hc) as Hst1.
  pose proof (Inv_store _ _ Hst1 Hc Hidx Hoff) as Hst'. fold st' in Hst'.
  pose proof Hst1 as [Hlen Hid Hexp Hgot Hrecv].
  pose proof (wf_packet_index _ Hc) as [? Hidx16].
  destruct (copy_length_in_range (packet_index c)
              (Z.of_nat (length (payload c)))) as [Hcopy Hend];
    [done|done|split; [lia|apply Hc]|].
  assert (0 ≤ packet_index c * CHUNK_SIZE) by (rewrite CHUNK_SIZE_val; lia).
  unfold offer. cbv zeta.
  rewrite (bool_decide_eq_false_2 (packet_index c >= _)) by lia.
  rewrite offset_no_wrap by apply Hc.
  rewrite (bool_decide_eq_false_2 (_ >= FRAME_BYTES)) by lia.
  rewrite Hcopy, memcpy_Some by lia. cbn [mbind option_bind].
  rewrite Nat2Z.id, firstn_all.
  assert (Z.to_nat (packet_index c * CHUNK_SIZE + Z.of_nat (length (payload c)))
          = (Z.to_nat (packet_index c * CHUNK_SIZE) + length (payload c))%nat)
    as -> by lia.
  unfold mark.
  destruct (got_packet (start_frame st c) !! Z.to_nat (packet_index c))
    as [got|] eqn:Hi; cycle 1.
  { apply lookup_ge_None in Hi. lia. }
  cbn [mbind option_bind].
  assert (popcount (got_packet (start_frame st c)) + 1 < 2 ^ 32).
  { pose proof (popcount_bounds (got_packet (start_frame st c))).
    unfold uint16 in Hexp. lia. }
  pose proof (popcount_bounds (got_packet (start_frame st c))).
  match goal with |- context [if got then Some ?a else Some ?b] =>
    assert ((if got then Some a else Some b) = Some st') as -> end.
  { unfold st', store. destruct got.
    - rewrite bool_decide_eq_false_2 by congruence.
      by rewrite list_insert_id.
    - rewrite bool_decide_eq_true_2 by done.
      rewrite Hrecv, size_t_small by lia. done. }
  cbn [mbind option_bind].
  case_bool_decide; [|by eexists].
  destruct (present_Some (frame_buf st')) as [evs ->]; [apply Hst'|].
  by eexists.
Qed.

(** [offer] is total on the states the loop can be in, and keeps it there. *)
Lemma offer_Inv st c :
  Inv st → wf_chunk c →
  ∃ st' evs, offer st c = Some (st', evs) ∧ Inv st'.
Proof.
  intros Hst Hc. pose proof (Inv_start_frame _ _ Hst Hc) as Hst1.
  destruct (decide (packet_index c >= expected_packets (start_frame st c)
                    ∨ packet_index c * CHUNK_SIZE >= FRAME_BYTES)) as [Hd|Hs].
  - rewrite offer_dropped by done. by eexists _, _.
  - destruct (offer_stored st c) as (evs & -> & _); [done|done|lia|lia|].
    eexists _, _. split; [done|]. apply Inv_store; [done|done|lia|lia].
Qed.

(** *** From datagrams to chunks *)

Lemma byte_val_range b : 0 ≤ byte_val b < 256.
Proof.
  unfold byte_val. pose proof (Byte.to_N_bounded b). lia.
Qed.

Lemma recv_buf_ok_initial : recv_buf_ok initial_recv_buf.
Proof.
  unfold recv_buf_ok, initial_recv_buf. rewrite length_replicate.
  by rewrite Z2Nat.id.
Qed.

Lemma HEADER_SIZE_val : HEADER_SIZE = 6.
Proof. reflexivity. Qed.

Lemma ntohs_at_app d rest i :
  (S i < length d)%nat → ntohs_at (d ++ rest) i = ntohs_at d i.
Proof.
  intros. unfold ntohs_at. by rewrite !lookup_app_l by lia.
Qed.

Lemma ntohs_at_uint16 d i :
  (S i < length d)%nat → ∃ v, ntohs_at d i = Some v ∧ uint16 v.
Proof.
  intros Hi. unfold ntohs_at.
  destruct (lookup_lt_is_Some_2 d i) as [hi ->]; [lia|].
  destruct (lookup_lt_is_Some_2 d (S i)) as [lo ->]; [lia|].
  cbn [mbind option_bind]. eexists; split; [done|].
  pose proof (byte_val_range hi). pose proof (byte_val_range lo).
  unfold uint16. lia.
Qed.

(** What [receive_chunk] computes, in terms of the datagram alone. *)
Lemma receive_chunk_datagram recv_buf d :
  recv_buf_ok recv_buf →
  let d' := take (Z.to_nat (HEADER_SIZE + CHUNK_SIZE)) d in
  ∃ recv_buf', recv_buf_ok recv_buf' ∧
    receive_chunk recv_buf (recv_datagram d) =
      Some (recv_buf',
            if bool_decide (Z.of_nat (length d') < HEADER_SIZE) then None
            else fid ← ntohs_at d' 0; idx ← ntohs_at d' 2; tot ← ntohs_at d' 4;
                 Some {| frame_id := fid; packet_index := idx;
                         total_packets := tot;
                         payload := drop (Z.to_nat HEADER_SIZE) d' |}).
Proof.
  intros Hrb d'. unfold receive_chunk, recv.
  unfold recv_buf_ok in Hrb.
  assert (length recv_buf = Z.to_nat (HEADER_SIZE + CHUNK_SIZE)) as Hrb' by lia.
  rewrite Hrb'. fold d'.
  assert (Z.of_nat (length d') ≤ HEADER_SIZE + CHUNK_SIZE) as Hd'.
  { unfold d'. rewrite length_take. lia. }
  exists (d' ++ drop (length d') recv_buf). split.
  { unfold recv_buf_ok. rewrite length_app, length_drop. lia. }
  rewrite HEADER_SIZE_val, CHUNK_SIZE_val in *.
  case_bool_decide as Hn; [done|].
  rewrite !ntohs_at_app by lia.
  destruct (ntohs_at_uint16 d' 0) as (fid & -> & _); [lia|].
  destruct (ntohs_at_uint16 d' 2) as (idx & -> & _); [lia|].
  destruct (ntohs_at_uint16 d' 4) as (tot & -> & _); [lia|].
  cbn [mbind option_bind].
  rewrite size_t_small by lia.
  rewrite bool_decide_eq_false_2 by lia.
  do 4 f_equal.
  rewrite drop_app_le by lia.
  rewrite take_app_le by (rewrite length_drop; lia).
  rewrite take_ge by (rewrite length_drop; lia). done.
Qed.

(** The chunk read from a datagram does not depend on what an earlier
    datagram left in [recv_buf]. *)
Lemma receive_chunk_decode recv_buf r :
  recv_buf_ok recv_buf →
  ∃ recv_buf', recv_buf_ok recv_buf'
    ∧ receive_chunk recv_buf r = Some (recv_buf', decode r).
Proof.
  intros Hrb. unfold decode. destruct r as [|d].
  - exists recv_buf. done.
  - destruct (receive_chunk_datagram recv_buf d Hrb) as (rb1 & ? & ->).
    destruct (receive_chunk_datagram initial_recv_buf d recv_buf_ok_initial)
      as (rb2 & ? & ->).
    by exists rb1.
Qed.

Lemma decode_wf r c : decode r = Some c → wf_chunk c.
Proof.
  unfold decode. destruct r as [|d]; [done|].
  destruct (receive_chunk_datagram initial_recv_buf d recv_buf_ok_initial)
    as (rb & _ & ->).
  case_bool_decide as Hn; [done|].
  rewrite HEADER_SIZE_val, CHUNK_SIZE_val in *.
  set (d' := take _ d) in *.
  assert (Z.of_nat (length d') ≤ 6 + 1024) as Hd'.
  { unfold d'. rewrite length_take. lia. }
  destruct (ntohs_at_uint16 d' 0) as (fid & -> & ?); [lia|].
  destruct (ntohs_at_uint16 d' 2) as (idx & -> & ?); [lia|].
  destruct (ntohs_at_uint16 d' 4) as (tot & -> & ?); [lia|].
  cbn [mbind option_bind]. intros [= <-]. split; cbn; try done.
  rewrite length_drop, CHUNK_SIZE_val. lia.
Qed.

(** One iteration is [offer] on the decoded chunk, when there is one. *)
Lemma iteration_decode recv_buf st r :
  recv_buf_ok recv_buf →
  ∃ recv_buf', recv_buf_ok recv_buf' ∧
    iteration recv_buf st r =
      match decode r with
      | None => Some (recv_buf', st, [])
      | Some c => '(st', evs) ← offer st c; Some (recv_buf', st', evs)
      end.
Proof.
  intros Hrb. destruct (receive_chunk_decode recv_buf r Hrb) as (rb' & ? & Hr).
  exists rb'. split; [done|]. unfold iteration. rewrite Hr.
  cbn [mbind option_bind]. done.
Qed.

(** The whole loop is [offer_all] on the chunks that pass the length checks. *)
Lemma run_offer_all recv_buf st rs :
  recv_buf_ok recv_buf →
  ∃ recv_buf', recv_buf_ok recv_buf' ∧
    run recv_buf st rs =
      ('(st', evs) ← offer_all st (omap decode rs); Some (recv_buf', st', evs)).
Proof.
  revert recv_buf st. induction rs as [|r rs IH]; intros rb st Hrb.
  - by exists rb.
  - destruct (iteration_decode rb st r Hrb) as (rb1 & Hrb1 & Hit).
    cbn [run omap list_omap]. rewrite Hit.
    destruct (decode r) as [c|]; cbn [mbind option_bind].
    + cbn [offer_all]. destruct (offer st c) as [[st1 evs1]|];
        cbn [mbind option_bind]; [|by exists rb].
      destruct (IH rb1 st1 Hrb1) as (rb2 & ? & ->). exists rb2. split; [done|].
      destruct (offer_all st1 (omap decode rs)) as [[st2 evs2]|]; done.
    + destruct (IH rb1 st Hrb1) as (rb2 & ? & ->). exists rb2. split; [done|].
      destruct (offer_all st (omap decode rs)) as [[st2 evs2]|]; done.
Qed.

(** *** Starting a frame *)

Lemma start_frame_same st c :
  frame_id c = current_frame_id st → start_frame st c = st.
Proof. intros. unfold start_frame. by rewrite bool_decide_eq_false_2 by naive_solver. Qed.

Lemma start_frame_new st c :
  frame_id c ≠ current_frame_id st → start_frame st c = new_frame st c.
Proof. intros. unfold start_frame. by rewrite bool_decide_eq_true_2. Qed.

Lemma start_frame_idemp st c : start_frame (start_frame st c) c = start_frame st c.
Proof. apply start_frame_same. by rewrite start_frame_current. Qed.

(** [offer] only looks at the state through [start_frame]. *)
Lemma offer_start_frame st c : offer (start_frame st c) c = offer st c.
Proof. unfold offer. by rewrite start_frame_idemp. Qed.

Lemma new_frame_ext st1 st2 c :
  length (frame_buf st1) = length (frame_buf st2) →
  new_frame st1 c = new_frame st2 c.
Proof. intros H. unfold new_frame. by rewrite H. Qed.

(** The first chunk of a new frame id leads to the same result from every
    state with a frame buffer of the same size. *)
Lemma offer_new_frame_ext st st2 c :
  length (frame_buf st2) = length (frame_buf st) →
  frame_id c ≠ current_frame_id st → frame_id c ≠ current_frame_id st2 →
  offer st2 c = offer st c.
Proof.
  intros Hlen Hne Hne2.
  rewrite <- (offer_start_frame st2), <- (offer_start_frame st).
  rewrite !start_frame_new by done. by rewrite (new_frame_ext st2 st).
Qed.

(** *** The arrival history of the current frame *)

Lemma Ghost_initial : Ghost initial_state [].
Proof. split; [by intros c ?%elem_of_nil|done|done]. Qed.

(** The state an accepted or dropped chunk leads to. *)
Lemma offer_result st c st' evs :
  Inv st → wf_chunk c → offer st c = Some (st', evs) →
  let st1 := start_frame st c in
  (st' = st1 ∧ evs = [])
  ∨ (st' = store st1 c ∧ packet_index c < expected_packets st1
     ∧ packet_index c * CHUNK_SIZE < FRAME_BYTES
     ∧ if bool_decide (received_packets st' = expected_packets st')
       then present (frame_buf st') = Some evs else evs = []).
Proof.
  intros Hst Hc Hoff st1. subst st1.
  destruct (decide (packet_index c >= expected_packets (start_frame st c)
                    ∨ packet_index c * CHUNK_SIZE >= FRAME_BYTES)) as [Hd|Hs].
  - rewrite offer_dropped in Hoff by done. left. by injection Hoff as <- <-.
  - destruct (offer_stored st c) as (evs' & Hoff' & Hevs); [done|done|lia|lia|].
    rewrite Hoff' in Hoff. injection Hoff as <- <-. right.
    split_and!; [done|lia|lia|done].
Qed.

Lemma offer_current_frame_id st c st' evs :
  Inv st → wf_chunk c → offer st c = Some (st', evs) →
  current_frame_id st' = frame_id c.
Proof.
  intros Hst Hc Hoff.
  destruct (offer_result _ _ _ _ Hst Hc Hoff) as [[-> _]|[-> _]];
    apply start_frame_current.
Qed.

Lemma extend_run_last run c : c ∈ extend_run run c.
Proof.
  unfold extend_run. destruct run as [|c0 run]; [set_solver|].
  case_bool_decide; set_solver.
Qed.

Lemma Ghost_start_frame st run c :
  Ghost st run → wf_chunk c → Ghost (start_frame st c) (extend_run run c).
Proof.
  intros [Hid Hgot Hexp] Hc.
  destruct (decide (frame_id c = current_frame_id st)) as [Heq|Hne].
  - rewrite start_frame_same by done.
    assert (extend_run run c = run ++ [c]) as ->.
    { unfold extend_run. destruct run as [|c0 run]; [done|].
      rewrite bool_decide_eq_true_2; [done|]. rewrite Heq. symmetry.
      apply Hid. set_solver. }
    split.
    + intros c' [?|Hc'%list_elem_of_singleton]%elem_of_app;
        [by apply Hid|by subst].
    + intros i Hi. destruct (Hgot i Hi) as (c' & ? & ?). exists c'. set_solver.
    + intros Hpos. destruct (Hexp Hpos) as (c0 & Hhead & ?). exists c0.
      split; [|done]. by destruct run.
  - rewrite start_frame_new by done.
    assert (extend_run run c = [c]) as ->.
    { unfold extend_run. destruct run as [|c0 run]; [done|].
      rewrite bool_decide_eq_false_2; [done|]. intros Heq. apply Hne.
      rewrite Heq. apply Hid. set_solver. }
    split.
    + intros c' Hc'%list_elem_of_singleton. by subst.
    + cbn [new_frame got_packet]. by intros i [? _]%lookup_replicate.
    + intros _. by exists c.
Qed.

Lemma Ghost_offer st run c st' evs :
  Inv st → Ghost st run → wf_chunk c → offer st c = Some (st', evs) →
  Ghost st' (extend_run run c).
Proof.
  intros Hst Hg Hc Hoff.
  destruct (Ghost_start_frame st run c Hg Hc) as [Hid Hgot Hexp].
  destruct (offer_result _ _ _ _ Hst Hc Hoff) as [[-> _]|(-> & ? & ? & _)];
    [done|].
  pose proof (wf_packet_index _ Hc) as [? _].
  split; [exact Hid| |exact Hexp].
  intros i. unfold store; cbn [got_packet].
  destruct (decide (i = Z.to_nat (packet_index c))) as [->|Hne].
  - intros _. exists c. split; [apply extend_run_last|lia].
  - rewrite list_lookup_insert_ne by done. apply Hgot.
Qed.

Lemma offer_all_snoc st cs c :
  offer_all st (cs ++ [c]) =
    ('(st1, evs1) ← offer_all st cs; '(st2, evs2) ← offer st1 c;
     Some (st2, evs1 ++ evs2)).
Proof.
  revert st. induction cs as [|c0 cs IH]; intros st; simpl.
  - destruct (offer st c) as [[st2 evs2]|]; simpl; [|done].
    by rewrite app_nil_r.
  - destruct (offer st c0) as [[st0 evs0]|]; simpl; [|done].
    rewrite IH. destruct (offer_all st0 cs) as [[st1 evs1]|]; simpl; [|done].
    destruct (offer st1 c) as [[st2 evs2]|]; simpl; [|done].
    by rewrite app_assoc.
Qed.

(** The loop never crashes and stays inside the invariant, with the ghost
    history of the frame being assembled. *)
Lemma offer_all_Inv cs :
  Forall wf_chunk cs →
  ∃ st evs, offer_all initial_state cs = Some (st, evs)
    ∧ Inv st ∧ Ghost st (current_run cs).
Proof.
  induction cs as [|c cs IH] using rev_ind; intros Hcs.
  - exists initial_state, []. split_and!; [done|apply Inv_initial_state|apply Ghost_initial].
  - apply Forall_app in Hcs as [Hcs Hc]. apply Forall_inv in Hc.
    destruct (IH Hcs) as (st & evs & Hall & Hst & Hg).
    destruct (offer_Inv st c Hst Hc) as (st' & evs' & Hoff & Hst').
    exists st', (evs ++ evs'). split_and!; [|exact Hst'|].
    + rewrite offer_all_snoc, Hall. cbn [mbind option_bind]. rewrite Hoff.
      done.
    + unfold current_run. rewrite foldl_app. cbn [foldl].
      exact (Ghost_offer _ _ _ _ _ Hst Hg Hc Hoff).
Qed.

Lemma decode_all_wf rs : Forall wf_chunk (omap decode rs).
Proof.
  apply Forall_forall. intros c (r & _ & Hr)%list_elem_of_omap.
  by eapply decode_wf.
Qed.

Lemma run_total rs :
  ∃ recv_buf st evs,
    run initial_recv_buf initial_state rs = Some (recv_buf, st, evs)
    ∧ offer_all initial_state (omap decode rs) = Some (st, evs)
    ∧ recv_buf_ok recv_buf ∧ Inv st ∧ Ghost st (current_run (omap decode rs)).
Proof.
  destruct (run_offer_all initial_recv_buf initial_state rs recv_buf_ok_initial)
    as (rb & Hrb & ->).
  destruct (offer_all_Inv (omap decode rs) (decode_all_wf rs))
    as (st & evs & -> & Hst & Hg).
  by exists rb, st, evs.
Qed.

Lemma current_run_snoc cs c :
  current_run (cs ++ [c]) = extend_run (current_run cs) c.
Proof. unfold current_run. by rewrite foldl_app. Qed.

Lemma omap_decode_snoc rs r :
  omap decode (rs ++ [r]) =
    omap decode rs ++ match decode r with Some c => [c] | None => [] end.
Proof. rewrite omap_app. simpl. by destruct (decode r). Qed.

(** One more iteration after any input: what it returns and why. *)
Lemma iteration_after_run rs r :
  ∃ recv_buf st evs0 recv_buf' st' evs,
    run initial_recv_buf initial_state rs = Some (recv_buf, st, evs0)
    ∧ iteration recv_buf st r = Some (recv_buf', st', evs)
    ∧ Inv st ∧ Inv st'
    ∧ Ghost st' (current_run (omap decode (rs ++ [r])))
    ∧ match decode r with
      | None => st' = st ∧ evs = []
      | Some c => wf_chunk c ∧ offer st c = Some (st', evs)
      end.
Proof.
  destruct (run_total rs) as (rb & st & evs0 & Hrun & _ & Hrb & Hst & Hg).
  destruct (iteration_decode rb st r Hrb) as (rb' & _ & Hit).
  rewrite omap_decode_snoc.
  destruct (decode r) as [c|] eqn:Hr.
  - pose proof (decode_wf _ _ Hr) as Hc.
    destruct (offer_Inv st c Hst Hc) as (st' & evs & Hoff & Hst').
    rewrite Hoff in Hit. cbn [mbind option_bind] in Hit.
    exists rb, st, evs0, rb', st', evs. split_and!; try done.
    rewrite current_run_snoc. exact (Ghost_offer _ _ _ _ _ Hst Hg Hc Hoff).
  - exists rb, st, evs0, rb', st, []. rewrite app_nil_r. by split_and!.
Qed.

(** *** Assembling one whole frame *)

Lemma chunks_per_frame_val : chunks_per_frame = 144.
Proof. reflexivity. Qed.

Section one_frame.
Variables (frame : list byte) (fid : Z).
Hypothesis frame_length : Z.of_nat (length frame) = FRAME_BYTES.
Hypothesis fid_range : uint16 fid.

Lemma chunk_of_payload_length i :
  0 ≤ i < chunks_per_frame →
  length (payload (chunk_of frame fid i)) = Z.to_nat CHUNK_SIZE.
Proof.
  intros Hi. cbn [chunk_of payload]. rewrite length_take, length_drop.
  rewrite chunks_per_frame_val, FRAME_BYTES_chunks, CHUNK_SIZE_val in *. lia.
Qed.

Lemma chunk_of_wf i : 0 ≤ i < chunks_per_frame → wf_chunk (chunk_of frame fid i).
Proof.
  intros Hi. split; cbn [chunk_of frame_id packet_index total_packets].
  - done.
  - unfold uint16. rewrite chunks_per_frame_val in Hi. lia.
  - by rewrite chunks_per_frame_val.
  - rewrite chunk_of_payload_length by done. rewrite CHUNK_SIZE_val. lia.
Qed.

Lemma store_chunk_lookup st i (k : nat) :
  Z.of_nat (length (frame_buf st)) = FRAME_BYTES →
  0 ≤ i < chunks_per_frame →
  frame_buf (store st (chunk_of frame fid i)) !! k =
    if bool_decide (Z.of_nat k / CHUNK_SIZE = i) then frame !! k
    else frame_buf st !! k.
Proof.
  intros Hlen Hi. unfold store; cbn [frame_buf].
  rewrite chunk_of_payload_length by done.
  cbn [chunk_of payload packet_index].
  rewrite chunks_per_frame_val, FRAME_BYTES_chunks, CHUNK_SIZE_val in *.
  assert (Z.of_nat k / 1024 = i ↔ i * 1024 ≤ Z.of_nat k < i * 1024 + 1024)
    as Hdiv.
  { pose proof (Z.div_mod (Z.of_nat k) 1024).
    pose proof (Z.mod_pos_bound (Z.of_nat k) 1024). split; [lia|].
    intros ?. symmetry. apply (Z.div_unique _ _ i (Z.of_nat k - i * 1024)); lia. }
  case_bool_decide as Hk.
  - apply Hdiv in Hk.
    rewrite lookup_app_r by (rewrite length_take; lia).
    rewrite length_take, Nat.min_l by lia.
    rewrite lookup_app_l by (rewrite length_take, length_drop; lia).
    rewrite lookup_take_lt by lia. rewrite lookup_drop. f_equal. lia.
  - rewrite Hdiv in Hk. destruct (decide (Z.of_nat k < i * 1024)).
    + rewrite lookup_app_l by (rewrite length_take; lia).
      by rewrite lookup_take_lt by lia.
    + rewrite lookup_app_r by (rewrite length_take; lia).
      rewrite length_take, Nat.min_l by lia.
      rewrite lookup_app_r by (rewrite length_take, length_drop; lia).
      rewrite length_take, length_drop, Nat.min_l by lia.
      rewrite lookup_drop. f_equal. lia.
Qed.

(** Offering one chunk of the frame while it is being assembled. *)
Lemma Assembling_offer seen st i :
  Assembling frame fid seen st → 0 ≤ i < chunks_per_frame →
  let st' := store st (chunk_of frame fid i) in
  Assembling frame fid (i :: seen) st'
  ∧ ∃ evs, offer st (chunk_of frame fid i) = Some (st', evs)
      ∧ if bool_decide (received_packets st' = expected_packets st')
        then present (frame_buf st') = Some evs else evs = [].
Proof.
  intros [Hst Hid Hexp Hbytes Hgot] Hi st'.
  pose proof (chunk_of_wf i Hi) as Hc.
  assert (start_frame st (chunk_of frame fid i) = st) as Hsame
    by by apply start_frame_same.
  assert (packet_index (chunk_of frame fid i) * CHUNK_SIZE < FRAME_BYTES) as Hoff.
  { cbn [chunk_of packet_index].
    rewrite chunks_per_frame_val, FRAME_BYTES_chunks, CHUNK_SIZE_val in *. lia. }
  assert (packet_index (chunk_of frame fid i) < expected_packets st) as Hidx.
  { cbn [chunk_of packet_index]. lia. }
  split.
  - split.
    + by apply Inv_store.
    + done.
    + done.
    + intros k Hk. unfold st'. rewrite store_chunk_lookup by (done || apply Hst).
      case_bool_decide as Hki; [done|]. apply Hbytes.
      apply elem_of_cons in Hk as [?|?]; done.
    + intros j Hj. unfold st', store; cbn [got_packet chunk_of packet_index].
      destruct (decide (Z.to_nat i = Z.to_nat j)) as [<-|Hne].
      * apply list_lookup_insert_eq. destruct Hst as [_ _ _ Hlen _]. lia.
      * rewrite list_lookup_insert_ne by done. apply Hgot.
        apply elem_of_cons in Hj as [->|?]; done.
  - destruct (offer_stored st (chunk_of frame fid i)) as (evs & Hoffer & Hevs);
      rewrite ?Hsame; try done.
    rewrite Hsame in Hoffer, Hevs. by exists evs.
Qed.

Lemma Assembling_offer_all seen st order :
  Assembling frame fid seen st → Forall (λ i, 0 ≤ i < chunks_per_frame) order →
  ∃ st' evs, offer_all st (chunk_of frame fid <$> order) = Some (st', evs)
    ∧ Assembling frame fid (reverse order ++ seen) st'.
Proof.
  intros Hasm Horder. revert seen st Hasm.
  induction Horder as [|i order Hi _ IH]; intros seen st Hasm.
  - by exists st, [].
  - destruct (Assembling_offer seen st i Hasm Hi) as [Hasm' (evs & Hoff & _)].
    destruct (IH _ _ Hasm') as (st' & evs' & Hall & Hasm'').
    exists st', (evs ++ evs'). cbn [fmap list_fmap offer_all].
    rewrite Hoff. cbn [mbind option_bind].
    change (list_fmap _ _ ?f ?l) with (f <$> l). rewrite Hall. split; [done|].
    by rewrite reverse_cons, <- app_assoc.
Qed.

(** Once every chunk has been seen the frame is whole. *)
Lemma Assembling_complete seen st :
  Assembling frame fid seen st → (∀ i, 0 ≤ i < chunks_per_frame → i ∈ seen) →
  frame_buf st = frame ∧ received_packets st = expected_packets st.
Proof.
  intros [Hst Hid Hexp Hbytes Hgot] Hall. destruct Hst as [Hlen _ _ Hglen Hcount].
  rewrite chunks_per_frame_val, FRAME_BYTES_chunks, CHUNK_SIZE_val in *.
  split.
  - apply list_eq. intros k. destruct (decide (Z.of_nat k < 144 * 1024)).
    + apply Hbytes, Hall.
      split; [apply Z.div_pos; lia|apply Z.div_lt_upper_bound; lia].
    + rewrite !lookup_ge_None_2 by lia. done.
  - rewrite Hcount, <- Hglen. apply popcount_full. intros n b Hn.
    pose proof (lookup_lt_Some _ _ _ Hn).
    specialize (Hgot (Z.of_nat n)). rewrite Nat2Z.id in Hgot.
    rewrite Hgot in Hn by (apply Hall; lia). congruence.
Qed.
End one_frame.

Lemma offer_all_start_frame st c cs :
  offer_all (start_frame st c) (c :: cs) = offer_all st (c :: cs).
Proof. cbn [offer_all]. by rewrite offer_start_frame. Qed.

(** *** The embedding on concrete inputs *)

Example decode_example :
  decode (recv_datagram [x00; x05; x00; x02; x00; x90; xaa; xbb])
  = Some {| frame_id := 5; packet_index := 2; total_packets := 144;
            payload := [xaa; xbb] |}.
Proof. by_compute. Qed.

Example decode_short_datagram :
  decode (recv_datagram [x00; x05; x00; x02; x00]) = None.
Proof. by_compute. Qed.

Example decode_recv_failed : decode recv_failed = None.
Proof. by_compute. Qed.

(** A datagram longer than [recv_buf] is cut by [recv], so the payload never
    exceeds [CHUNK_SIZE]. *)
Example decode_long_datagram :
  (λ c, Z.of_nat (length (payload c)))
    <$> decode (recv_datagram (replicate (Z.to_nat 2000) x01))
  = Some 1024.
Proof. by_compute. Qed.

(** A one-chunk frame is presented as soon as its chunk arrives: 256 * 192
    pixel calls and the swap. *)
Example offer_one_chunk_frame :
  observe (offer initial_state
             {| frame_id := 9; packet_index := 0; total_packets := 1;
                payload := [x01; x02; x03] |})
  = Some (9, 1, [true], 1, [x01; x02; x03; x00], 49153).
Proof. by_compute. Qed.

(** *** The claims about the datagram receiver *)

(** C1 (amended): while frame N is being assembled, a chunk with another
    frame_id starts a new frame and discards N's partial data: the result is
    the one reached from any other state not assembling that id.  A chunk
    carrying frame_id N that is offered afterwards is not ignored: it is in
    turn the start of a new frame, the state is reset for id N (which abandons
    the partial frame N+1), and state and display output are those of offering
    that chunk to any reassembler not assembling N, so none of N's earlier
    data can reach the display. *)
Theorem C1_late_chunk_starts_new_frame (st : State) (c_next c_late : Chunk) :
  Inv st → wf_chunk c_next → wf_chunk c_late →
  frame_id c_next ≠ current_frame_id st →
  frame_id c_late = current_frame_id st →
  ∃ st1 evs1 st2 evs2,
    offer st c_next = Some (st1, evs1)
    ∧ offer st1 c_late = Some (st2, evs2)
    ∧ current_frame_id st1 = frame_id c_next
    ∧ current_frame_id st2 = frame_id c_late
    ∧ (∀ st0, length (frame_buf st0) = length (frame_buf st) →
              frame_id c_next ≠ current_frame_id st0 →
              offer st0 c_next = Some (st1, evs1))
    ∧ (∀ st0, length (frame_buf st0) = length (frame_buf st) →
              frame_id c_late ≠ current_frame_id st0 →
              offer st0 c_late = Some (st2, evs2)).
Proof.
  intros Hst Hnext Hlate Hne Heq.
  destruct (offer_Inv st c_next Hst Hnext) as (st1 & evs1 & Hoff1 & Hst1).
  destruct (offer_Inv st1 c_late Hst1 Hlate) as (st2 & evs2 & Hoff2 & Hst2).
  pose proof (offer_current_frame_id _ _ _ _ Hst Hnext Hoff1) as Hid1.
  pose proof (offer_current_frame_id _ _ _ _ Hst1 Hlate Hoff2) as Hid2.
  assert (length (frame_buf st1) = length (frame_buf st)) as Hlen1.
  { pose proof (inv_frame_buf _ Hst). pose proof (inv_frame_buf _ Hst1). lia. }
  exists st1, evs1, st2, evs2. split_and!; try done.
  - intros st0 Hlen0 Hne0. rewrite <- Hoff1. by apply offer_new_frame_ext.
  - intros st0 Hlen0 Hne0. rewrite <- Hoff2.
    apply offer_new_frame_ext; congruence.
Qed.

Lemma C1_late_chunk_starts_new_frame_witness :
  ∃ st1 evs1 st2 evs2,
    offer (state_after [f1_c0]) f2_c0 = Some (st1, evs1)
    ∧ offer st1 f1_c1 = Some (st2, evs2)
    ∧ current_frame_id st2 = frame_id f1_c1.
Proof.
  destruct (C1_late_chunk_starts_new_frame (state_after [f1_c0]) f2_c0 f1_c1)
    as (st1 & evs1 & st2 & evs2 & H1 & H2 & _ & H3 & _).
  - split; by_compute.
  - split; by_compute.
  - split; by_compute.
  - by_compute.
  - by_compute.
  - exists st1, evs1, st2, evs2. split_and!; [exact H1|exact H2|exact H3].
Defined.

(** C1 as stated fails.  Frame 1 is being assembled, a chunk of frame 2
    starts frame 2, and the late chunk [f1_c1] of frame 1 is then not
    ignored: it switches the state back to frame 1 and clears the data of
    frame 2, so that the chunk which would have completed frame 2 (49153
    driver calls: the pixels and the swap) now shows nothing. *)
Lemma C1_counterexample :
  current_frame_id (state_after [f1_c0]) = frame_id f1_c1
  ∧ frame_id f2_c0 ≠ frame_id f1_c1
  ∧ state_after [f1_c0; f2_c0; f1_c1] ≠ state_after [f1_c0; f2_c0]
  ∧ observe (offer_all initial_state [f1_c0; f2_c0])
    = Some (2, 2, [true; false], 1, [x21; x00; x00; x00], 0)
  ∧ observe (offer_all initial_state [f1_c0; f2_c0; f1_c1])
    = Some (1, 2, [false; true], 1, [x00; x00; x00; x00], 0)
  ∧ observe (offer_all initial_state [f1_c0; f2_c0; f2_c1])
    = Some (2, 2, [true; true], 2, [x21; x00; x00; x00], 49153)
  ∧ observe (offer_all initial_state [f1_c0; f2_c0; f1_c1; f2_c1])
    = Some (2, 2, [false; true], 1, [x00; x00; x00; x00], 0).
Proof.
  split; [by_compute|]. split; [by_compute|]. split; [|by_compute].
  intros Heq. apply (f_equal current_frame_id) in Heq.
  vm_compute in Heq. discriminate.
Qed.

(** C2 (amended): a chunk whose packet_index is not below the expected count
    in force once "New frame?" has run, or whose offset plus payload length
    exceeds the frame size, is dropped without error or crash and its payload
    is never written.  If its frame_id is the current one the state is left
    unchanged; if it differs, the state left behind is the reset state of the
    new frame id (zeroed buffer, cleared bitmap, count 0). *)
Theorem C2_out_of_range_chunk_dropped (st : State) (c : Chunk) :
  wf_chunk c →
  packet_index c >= expected_packets (start_frame st c)
  ∨ packet_index c * CHUNK_SIZE + Z.of_nat (length (payload c)) > FRAME_BYTES →
  offer st c = Some (start_frame st c, [])
  ∧ (frame_id c = current_frame_id st → start_frame st c = st)
  ∧ (frame_id c ≠ current_frame_id st → start_frame st c = new_frame st c).
Proof.
  intros Hc Hbad. split_and!.
  - apply offer_dropped; [done|].
    destruct Hbad as [?|Hend]; [by left|right].
    pose proof (wf_payload _ Hc). pose proof (wf_packet_index _ Hc) as [? _].
    rewrite FRAME_BYTES_chunks, CHUNK_SIZE_val in *. lia.
  - apply start_frame_same.
  - apply start_frame_new.
Qed.

Lemma C2_out_of_range_chunk_dropped_witness :
  offer (state_after [f1_c0]) f2_bad
  = Some (start_frame (state_after [f1_c0]) f2_bad, []).
Proof.
  refine (proj1 (C2_out_of_range_chunk_dropped (state_after [f1_c0]) f2_bad
                   _ _)).
  - split; by_compute.
  - left. by_compute.
Defined.

(** C2 as stated fails.  The chunk [f2_bad] has index 5 with 2 chunks
    expected, before and after "New frame?", and is dropped; yet frame
    buffer, bitmap and count all change, because its frame id is new and the
    reset comes before the range check. *)
Lemma C2_counterexample :
  packet_index f2_bad >= expected_packets (state_after [f1_c0])
  ∧ packet_index f2_bad >= total_packets f2_bad
  ∧ frame_buf (state_after [f1_c0; f2_bad]) ≠ frame_buf (state_after [f1_c0])
  ∧ got_packet (state_after [f1_c0; f2_bad]) ≠ got_packet (state_after [f1_c0])
  ∧ received_packets (state_after [f1_c0; f2_bad])
    ≠ received_packets (state_after [f1_c0])
  ∧ observe (offer_all initial_state [f1_c0])
    = Some (1, 2, [true; false], 1, [x11; x00; x00; x00], 0)
  ∧ observe (offer_all initial_state [f1_c0; f2_bad])
    = Some (2, 2, [false; false], 0, [x00; x00; x00; x00], 0).
Proof.
  split; [by_compute|]. split; [by_compute|]. split; [|by_compute].
  intros Heq. apply (f_equal (take 4)) in Heq.
  vm_compute in Heq. discriminate.
Qed.

(** C3 (amended): for a complete, well-formed frame whose frame_id differs
    from current_frame_id when its first chunk is offered (or which the
    reassembler is already assembling with the same chunk count), every
    delivery order of its chunks that covers each index, reordered and with
    duplicates, leaves a frame buffer byte-identical to the frame, the count
    complete, and ends with the frame being presented. *)
Theorem C3_reassembly_order_independent
    (st : State) (frame : list byte) (fid : Z) (order : list Z) :
  Inv st → uint16 fid → Z.of_nat (length frame) = FRAME_BYTES →
  fid ≠ current_frame_id st ∨ expected_packets st = chunks_per_frame →
  Forall (λ i, 0 ≤ i < chunks_per_frame) order →
  Forall (λ i, i ∈ order) (seqZ 0 chunks_per_frame) →
  ∃ st' evs evs0 shown,
    offer_all st (chunk_of frame fid <$> order) = Some (st', evs)
    ∧ frame_buf st' = frame
    ∧ received_packets st' = expected_packets st'
    ∧ present frame = Some shown
    ∧ evs = evs0 ++ shown.
Proof.
  intros Hst Hfid Hframe Hnew Hrange Hcover.
  assert (∀ i, 0 ≤ i < chunks_per_frame → i ∈ order) as Hall.
  { intros i Hi. rewrite Forall_forall in Hcover. apply Hcover.
    apply elem_of_seqZ. lia. }
  destruct order as [|i0 order _] using rev_ind.
  { exfalso. apply (elem_of_nil 0), Hall. by rewrite chunks_per_frame_val. }
  apply Forall_app in Hrange as [Hrange Hlast]. apply Forall_inv in Hlast.
  (* the state in which the frame's first chunk is stored *)
  set (c0 := chunk_of frame fid (default i0 (head order))).
  assert (Assembling frame fid [] (start_frame st c0)) as Hasm.
  { split.
    - apply Inv_start_frame; [done|]. apply chunk_of_wf; [done..|].
      destruct order; [done|]. by apply Forall_inv in Hrange.
    - apply start_frame_current.
    - destruct Hnew as [Hne|Hexp].
      + by rewrite start_frame_new.
      + unfold start_frame. by case_bool_decide.
    - by intros k ?%elem_of_nil.
    - by intros i ?%elem_of_nil. }
  assert (offer_all st (chunk_of frame fid <$> (order ++ [i0]))
          = offer_all (start_frame st c0) (chunk_of frame fid <$> (order ++ [i0])))
    as ->.
  { unfold c0. destruct order; symmetry; apply offer_all_start_frame. }
  rewrite fmap_app. cbn [fmap list_fmap]. rewrite offer_all_snoc.
  destruct (Assembling_offer_all frame fid Hframe Hfid [] _ order Hasm Hrange)
    as (st1 & evs1 & -> & Hasm1).
  cbn [mbind option_bind].
  destruct (Assembling_offer frame fid Hframe Hfid _ st1 i0 Hasm1 Hlast)
    as [Hasm2 (evs2 & -> & Hevs)].
  cbn [mbind option_bind].
  destruct (Assembling_complete frame fid Hframe _ _ Hasm2) as [Hbuf Hfull].
  { intros i Hi. specialize (Hall i Hi).
    apply elem_of_app in Hall as [?|?%list_elem_of_singleton].
    - apply elem_of_cons. right. rewrite app_nil_r. by apply elem_of_reverse.
    - apply elem_of_cons. by left. }
  rewrite bool_decide_eq_true_2 in Hevs by done. rewrite Hbuf in Hevs.
  by eexists _, _, evs1, evs2.
Qed.

Lemma C3_reassembly_order_independent_witness :
  ∃ st' evs evs0 shown,
    offer_all initial_state (chunk_of demo_frame 5 <$> demo_order)
      = Some (st', evs)
    ∧ frame_buf st' = demo_frame
    ∧ received_packets st' = expected_packets st'
    ∧ present demo_frame = Some shown
    ∧ evs = evs0 ++ shown.
Proof.
  apply (C3_reassembly_order_independent initial_state demo_frame 5 demo_order).
  - split; by_compute.
  - by_compute.
  - by_compute.
  - left. by_compute.
  - refine (bool_decide_unpack _ _). by_compute.
  - refine (bool_decide_unpack _ _). by_compute.
Defined.

(** C3 as stated fails for a frame sent with id 0 to a receiver that has
    just started: all 144 chunks, in order, are dropped, the buffer stays
    zero and nothing is presented. *)
Lemma C3_counterexample :
  Z.of_nat (length frame_ff) = FRAME_BYTES
  ∧ frame_buf (state_after (chunk_of frame_ff 0 <$> seqZ 0 chunks_per_frame))
    ≠ frame_ff
  ∧ take 4 frame_ff = [xff; xff; xff; xff]
  ∧ observe (offer_all initial_state
               (chunk_of frame_ff 0 <$> seqZ 0 chunks_per_frame))
    = Some (0, 0, [], 0, [x00; x00; x00; x00], 0).
Proof.
  split; [by_compute|]. split; [|by_compute].
  intros Heq. apply (f_equal (take 4)) in Heq.
  vm_compute in Heq. discriminate.
Qed.

(** C4: whatever datagrams arrive, an iteration hands a frame to the display
    (renders and swaps) only if received_packets equals expected_packets
    afterwards; then every index below the expected count is marked, a chunk
    with that index and the current frame id did arrive since the frame
    started, and the expected count is the one its first chunk announced.  A
    frame missing a chunk is never presented. *)
Theorem C4_only_complete_frames_presented
    (rs : list recv_result) (r : recv_result) :
  ∃ recv_buf st evs0 recv_buf' st' evs,
    run initial_recv_buf initial_state rs = Some (recv_buf, st, evs0)
    ∧ iteration recv_buf st r = Some (recv_buf', st', evs)
    ∧ (evs = []
       ∨ (received_packets st' = expected_packets st'
          ∧ present (frame_buf st') = Some evs
          ∧ (∃ c0, head (current_run (omap decode (rs ++ [r]))) = Some c0
                   ∧ expected_packets st' = total_packets c0)
          ∧ ∀ i, 0 ≤ i < expected_packets st' →
              got_packet st' !! Z.to_nat i = Some true
              ∧ ∃ c, c ∈ current_run (omap decode (rs ++ [r]))
                     ∧ frame_id c = current_frame_id st'
                     ∧ packet_index c = i)).
Proof.
  destruct (iteration_after_run rs r)
    as (rb & st & evs0 & rb' & st' & evs & Hrun & Hit & Hst & Hst' & Hg & Hr).
  exists rb, st, evs0, rb', st', evs. split_and!; [done|done|].
  destruct (decode r) as [c|]; [|by left; apply Hr].
  destruct Hr as [Hc Hoff].
  destruct (offer_result _ _ _ _ Hst Hc Hoff) as [[_ ->]|(Hstore & Hidx & _ & Hevs)];
    [by left|].
  case_bool_decide as Hfull; [right|by left].
  pose proof (wf_packet_index _ Hc) as [? _].
  assert (expected_packets st' = expected_packets (start_frame st c)) as Hexp
    by by rewrite Hstore.
  assert (∀ i, 0 ≤ i < expected_packets st' →
               got_packet st' !! Z.to_nat i = Some true) as Hall.
  { intros i Hi. destruct Hst' as [_ _ _ Hlen Hcount].
    destruct (lookup_lt_is_Some_2 (got_packet st') (Z.to_nat i)) as [b Hb]; [lia|].
    rewrite Hb. f_equal. eapply popcount_full; [|exact Hb]. congruence. }
  split_and!; [done|done| |].
  - apply (ghost_expected _ _ Hg). lia.
  - intros i Hi. split; [by apply Hall|].
    destruct (ghost_got _ _ Hg (Z.to_nat i) (Hall i Hi)) as (c' & Hc' & Hidx').
    exists c'. split_and!; [done|by apply (ghost_id _ _ Hg)|lia].
Qed.

(** C5: received_packets = popcount got_packet holds in every state the loop
    reaches, the initial one included, and after every further iteration, be
    the chunk stored, a duplicate or rejected; the count grows by one exactly
    when an index that was not marked becomes marked, and is unchanged
    otherwise. *)
Theorem C5_received_count_is_popcount
    (rs : list recv_result) (r : recv_result) :
  ∃ recv_buf st evs0 recv_buf' st' evs,
    run initial_recv_buf initial_state rs = Some (recv_buf, st, evs0)
    ∧ received_packets st = popcount (got_packet st)
    ∧ iteration recv_buf st r = Some (recv_buf', st', evs)
    ∧ received_packets st' = popcount (got_packet st')
    ∧ match decode r with
      | None => st' = st
      | Some c =>
          let st1 := start_frame st c in
          let i := Z.to_nat (packet_index c) in
          (got_packet st1 !! i = Some false
           ∧ got_packet st' = <[i:=true]> (got_packet st1)
           ∧ received_packets st' = received_packets st1 + 1)
          ∨ (got_packet st' = got_packet st1
             ∧ received_packets st' = received_packets st1)
      end.
Proof.
  destruct (iteration_after_run rs r)
    as (rb & st & evs0 & rb' & st' & evs & Hrun & Hit & Hst & Hst' & Hg & Hr).
  exists rb, st, evs0, rb', st', evs.
  split_and!; [done|apply Hst|done|apply Hst'|].
  destruct (decode r) as [c|]; [|apply Hr].
  destruct Hr as [Hc Hoff]. cbv zeta.
  destruct (offer_result _ _ _ _ Hst Hc Hoff) as [[-> _]|(-> & Hidx & _ & _)];
    [by right|].
  unfold store; cbn [got_packet received_packets].
  case_bool_decide as Hi; [by left|right].
  split; [|done]. apply list_insert_id.
  pose proof (Inv_start_frame _ _ Hst Hc) as [_ _ _ Hlen _].
  pose proof (wf_packet_index _ Hc) as [? _].
  destruct (lookup_lt_is_Some_2 (got_packet (start_frame st c))
              (Z.to_nat (packet_index c))) as [[] Hb]; [lia|done|done].
Qed.

(** C10: the loop starts with current_frame_id = 0 and expected_packets = 0,
    and as long as every chunk that arrives carries frame_id 0 each one is
    dropped: the state stays the initial one and nothing is displayed. *)
Theorem C10_frame_id_zero_dropped_at_start (rs : list recv_result) :
  Forall (λ r, match decode r with Some c => frame_id c = 0 | None => True end)
         rs →
  current_frame_id initial_state = 0
  ∧ expected_packets initial_state = 0
  ∧ ∃ recv_buf,
      run initial_recv_buf initial_state rs = Some (recv_buf, initial_state, []).
Proof.
  intros Hrs. split_and!; [done|done|].
  destruct (run_offer_all initial_recv_buf initial_state rs recv_buf_ok_initial)
    as (rb & _ & ->).
  exists rb.
  enough (offer_all initial_state (omap decode rs) = Some (initial_state, []))
    as -> by done.
  induction Hrs as [|r rs Hr _ IH]; [done|].
  cbn [omap list_omap]. destruct (decode r) as [c|] eqn:Hdec; [|done].
  cbn [offer_all].
  assert (offer initial_state c = Some (initial_state, [])) as ->.
  { rewrite offer_dropped.
    - by rewrite start_frame_same.
    - by eapply decode_wf.
    - left. rewrite start_frame_same by done.
      pose proof (decode_wf _ _ Hdec) as [_ [? _] _ _].
      change (expected_packets initial_state) with 0. lia. }
  cbn [mbind option_bind]. rewrite IH. done.
Qed.

Lemma C10_frame_id_zero_dropped_at_start_witness :
  ∃ recv_buf,
    run initial_recv_buf initial_state id0_datagrams
    = Some (recv_buf, initial_state, []).
Proof.
  refine (proj2 (proj2 (C10_frame_id_zero_dropped_at_start id0_datagrams _))).
  unfold id0_datagrams.
  repeat (apply List.Forall_cons; [by_compute|]). apply List.Forall_nil.
Defined.

(** C6: when a chunk arrives whose frame_id differs from current_frame_id,
    the state is reset before the chunk is applied: current_frame_id becomes
    the chunk's id, expected_packets its total_packets, the bitmap is all
    false (popcount 0) and received_packets is 0, and every byte of the frame
    buffer is zero.  The chunk is then applied to that reset state, so the
    outcome is the same from every earlier state with a buffer of that size:
    no byte of a previous frame can show up in the new one. *)
Theorem C6_new_frame_resets_state (st : State) (c : Chunk) :
  frame_id c ≠ current_frame_id st →
  let st1 := start_frame st c in
  current_frame_id st1 = frame_id c
  ∧ expected_packets st1 = total_packets c
  ∧ got_packet st1 = replicate (Z.to_nat (total_packets c)) false
  ∧ popcount (got_packet st1) = 0
  ∧ received_packets st1 = 0
  ∧ length (frame_buf st1) = length (frame_buf st)
  ∧ (∀ k b, frame_buf st1 !! k = Some b → b = x00)
  ∧ offer st c = offer st1 c
  ∧ (∀ st2, length (frame_buf st2) = length (frame_buf st) →
            frame_id c ≠ current_frame_id st2 → offer st2 c = offer st c).
Proof.
  intros Hne st1. unfold st1. rewrite start_frame_new by done.
  split_and!; try done.
  - cbn [new_frame got_packet]. apply popcount_replicate_false.
  - cbn [new_frame frame_buf]. by rewrite length_replicate.
  - cbn [new_frame frame_buf]. by intros k b [-> _]%lookup_replicate.
  - rewrite <- (start_frame_new st c) by done. by rewrite offer_start_frame.
  - intros st2 Hlen Hne2. by apply offer_new_frame_ext.
Qed.

Lemma C6_new_frame_resets_state_witness :
  current_frame_id (start_frame (state_after [f1_c0]) f2_c0) = frame_id f2_c0.
Proof.
  refine (proj1 (C6_new_frame_resets_state (state_after [f1_c0]) f2_c0 _)).
  by_compute.
Defined.

(** *** Further facts: datagrams and the two length checks *)

Lemma decode_datagram d :
  decode (recv_datagram d) =
    let d' := take (Z.to_nat (HEADER_SIZE + CHUNK_SIZE)) d in
    if bool_decide (Z.of_nat (length d') < HEADER_SIZE) then None
    else fid ← ntohs_at d' 0; idx ← ntohs_at d' 2; tot ← ntohs_at d' 4;
         Some {| frame_id := fid; packet_index := idx; total_packets := tot;
                 payload := drop (Z.to_nat HEADER_SIZE) d' |}.
Proof.
  unfold decode.
  destruct (receive_chunk_datagram initial_recv_buf d recv_buf_ok_initial)
    as (rb & _ & ->).
  reflexivity.
Qed.

Lemma decode_short d :
  Z.of_nat (length d) < HEADER_SIZE → decode (recv_datagram d) = None.
Proof.
  intros Hlen. rewrite decode_datagram. cbv zeta.
  rewrite bool_decide_eq_true_2; [reflexivity|].
  rewrite length_take. lia.
Qed.

Lemma decode_header f1 f0 i1 i0 t1 t0 body :
  decode (recv_datagram (f1 :: f0 :: i1 :: i0 :: t1 :: t0 :: body)) =
    Some {| frame_id := 256 * byte_val f1 + byte_val f0;
            packet_index := 256 * byte_val i1 + byte_val i0;
            total_packets := 256 * byte_val t1 + byte_val t0;
            payload := take (Z.to_nat CHUNK_SIZE) body |}.
Proof.
  rewrite decode_datagram. cbv zeta.
  replace (Z.to_nat (HEADER_SIZE + CHUNK_SIZE))
    with (6 + Z.to_nat CHUNK_SIZE)%nat
    by (rewrite HEADER_SIZE_val, CHUNK_SIZE_val; lia).
  cbn [Nat.add firstn].
  rewrite bool_decide_eq_false_2
    by (rewrite HEADER_SIZE_val; cbn [length]; lia).
  rewrite HEADER_SIZE_val. reflexivity.
Qed.

(** *** What storing a chunk does to the buffer *)

Lemma State_eq (s1 s2 : State) :
  frame_buf s1 = frame_buf s2 → current_frame_id s1 = current_frame_id s2 →
  expected_packets s1 = expected_packets s2 → got_packet s1 = got_packet s2 →
  received_packets s1 = received_packets s2 → s1 = s2.
Proof. destruct s1, s2. cbn. by intros -> -> -> -> ->. Qed.

Lemma store_lookup st c (k : nat) :
  let off := Z.to_nat (packet_index c * CHUNK_SIZE) in
  (off + length (payload c) ≤ length (frame_buf st))%nat →
  frame_buf (store st c) !! k =
    if bool_decide (off ≤ k < off + length (payload c))%nat
    then payload c !! (k - off)%nat else frame_buf st !! k.
Proof.
  intros off Hlen. unfold store. cbn [frame_buf]. fold off.
  assert (length (take off (frame_buf st)) = off) as Htake
    by (rewrite length_take; lia).
  case_bool_decide as Hk.
  - rewrite lookup_app_r by lia. rewrite Htake.
    rewrite lookup_app_l by lia. reflexivity.
  - destruct (decide (k < off)%nat) as [Hlt|Hge].
    + rewrite lookup_app_l by lia. by rewrite lookup_take_lt by lia.
    + rewrite lookup_app_r by lia. rewrite Htake.
      rewrite lookup_app_r by lia. rewrite lookup_drop. f_equal. lia.
Qed.

Lemma store_in_range st c :
  Inv st → wf_chunk c → packet_index c * CHUNK_SIZE < FRAME_BYTES →
  (Z.to_nat (packet_index c * CHUNK_SIZE) + length (payload c)
   ≤ length (frame_buf st))%nat.
Proof.
  intros HI Hwf Hoff.
  destruct HI as [Hfb _ _ _ _], Hwf as [_ [Hi0 _] _ Hp].
  destruct (copy_length_in_range (packet_index c)
              (Z.of_nat (length (payload c)))) as [_ Hfit]; [lia|lia|lia|].
  rewrite CHUNK_SIZE_val in *. lia.
Qed.

Lemma store_idemp st c :
  Inv st → wf_chunk c →
  packet_index c < expected_packets st →
  packet_index c * CHUNK_SIZE < FRAME_BYTES →
  store (store st c) c = store st c.
Proof.
  intros HI Hwf Hidx Hoff.
  pose proof (store_in_range _ _ HI Hwf Hoff) as Hfit.
  pose proof (Inv_store _ _ HI Hwf Hidx Hoff) as HI'.
  pose proof (store_in_range _ _ HI' Hwf Hoff) as Hfit'.
  assert (frame_buf (store (store st c) c) = frame_buf (store st c)) as Hfb.
  { apply list_eq. intros k. rewrite (store_lookup (store st c)) by exact Hfit'.
    case_bool_decide as Hk; [|reflexivity].
    rewrite store_lookup by exact Hfit. by rewrite bool_decide_eq_true_2. }
  assert (got_packet (store st c) !! Z.to_nat (packet_index c) = Some true)
    as Hgot.
  { cbn [store got_packet]. apply list_lookup_insert_eq.
    destruct HI as [_ _ _ Hg _], Hwf as [_ [? _] _ _]. lia. }
  apply State_eq; [exact Hfb|reflexivity|reflexivity| |].
  - cbn [store got_packet]. apply list_insert_insert_eq.
  - unfold store at 1. cbn [received_packets].
    rewrite Hgot. by rewrite bool_decide_eq_false_2.
Qed.

Lemma store_comm st c1 c2 :
  Inv st → wf_chunk c1 → wf_chunk c2 →
  packet_index c1 < expected_packets st →
  packet_index c1 * CHUNK_SIZE < FRAME_BYTES →
  packet_index c2 < expected_packets st →
  packet_index c2 * CHUNK_SIZE < FRAME_BYTES →
  packet_index c1 ≠ packet_index c2 →
  store (store st c1) c2 = store (store st c2) c1.
Proof.
  intros HI Hwf1 Hwf2 Hidx1 Hoff1 Hidx2 Hoff2 Hne.
  pose proof (store_in_range _ _ HI Hwf1 Hoff1) as Hfit1.
  pose proof (store_in_range _ _ HI Hwf2 Hoff2) as Hfit2.
  pose proof (Inv_store _ _ HI Hwf1 Hidx1 Hoff1) as HI1.
  pose proof (Inv_store _ _ HI Hwf2 Hidx2 Hoff2) as HI2.
  pose proof (store_in_range _ _ HI1 Hwf2 Hoff2) as Hfit12.
  pose proof (store_in_range _ _ HI2 Hwf1 Hoff1) as Hfit21.
  assert (Z.to_nat (packet_index c1) ≠ Z.to_nat (packet_index c2)) as Hne'.
  { destruct Hwf1 as [_ [? _] _ _], Hwf2 as [_ [? _] _ _]. lia. }
  assert (frame_buf (store (store st c1) c2)
          = frame_buf (store (store st c2) c1)) as Hfb.
  { apply list_eq. intros k.
    rewrite (store_lookup (store st c1) c2) by exact Hfit12.
    rewrite (store_lookup (store st c2) c1) by exact Hfit21.
    rewrite (store_lookup st c1) by exact Hfit1.
    rewrite (store_lookup st c2) by exact Hfit2.
    destruct Hwf1 as [_ [? _] _ Hp1], Hwf2 as [_ [? _] _ Hp2].
    rewrite CHUNK_SIZE_val in *.
    repeat case_bool_decide; try reflexivity; lia. }
  apply State_eq; [exact Hfb|reflexivity|reflexivity| |].
  - cbn [store got_packet]. by apply list_insert_insert_ne.
  - cbn [store got_packet received_packets].
    rewrite !list_lookup_insert_ne by done.
    repeat case_bool_decide; lia.
Qed.

(** *** Marked chunks lie inside the frame buffer *)

Lemma Marked_initial : Marked initial_state.
Proof.
  intros i. change (got_packet initial_state) with (@nil bool).
  by rewrite lookup_nil.
Qed.

Lemma Marked_start_frame st c : Marked st → Marked (start_frame st c).
Proof.
  intros HM. unfold start_frame. case_bool_decide; [|exact HM].
  intros i. cbn [new_frame got_packet]. intros [[=] _]%lookup_replicate.
Qed.

Lemma Marked_offer st c st' evs :
  Inv st → wf_chunk c → Marked st → offer st c = Some (st', evs) → Marked st'.
Proof.
  intros HI Hwf HM Hoff.
  pose proof (Marked_start_frame st c HM) as HM1.
  destruct (offer_result _ _ _ _ HI Hwf Hoff) as [[-> _]|(-> & _ & Hin & _)];
    [exact HM1|].
  intros i. cbn [store got_packet].
  destruct (decide (i = Z.to_nat (packet_index c))) as [->|Hne].
  - intros _. destruct Hwf as [_ [? _] _ _].
    rewrite chunks_per_frame_val. rewrite FRAME_BYTES_chunks, CHUNK_SIZE_val in Hin.
    lia.
  - rewrite list_lookup_insert_ne by done. apply HM1.
Qed.

Lemma Marked_offer_all cs : ∀ st st' evs,
  Inv st → Marked st → Forall wf_chunk cs →
  offer_all st cs = Some (st', evs) → Inv st' ∧ Marked st'.
Proof.
  induction cs as [|c cs IH]; intros st st' evs HI HM Hwf Hall.
  - injection Hall as <- _. done.
  - apply List.Forall_cons_iff in Hwf as [Hc Hcs]. cbn [offer_all] in Hall.
    destruct (offer_Inv st c HI Hc) as (st1 & evs1 & Hoff & HI1).
    rewrite Hoff in Hall. cbn [mbind option_bind] in Hall.
    destruct (offer_all st1 cs) as [[st2 evs2]|] eqn:Hrest; [|done].
    injection Hall as <- _.
    eapply IH; [exact HI1| |exact Hcs|exact Hrest].
    exact (Marked_offer _ _ _ _ HI Hc HM Hoff).
Qed.

Lemma popcount_marked bits (n : nat) :
  (∀ i : nat, bits !! i = Some true → (i < n)%nat) →
  popcount bits ≤ Z.of_nat n.
Proof.
  revert n. induction bits as [|b bits IH]; intros n Hm; cbn [popcount]; [lia|].
  destruct n as [|n].
  - destruct b; [specialize (Hm O eq_refl); lia|].
    assert (popcount bits ≤ Z.of_nat 0); [|lia].
    apply IH. intros i Hi. specialize (Hm (S i) Hi). lia.
  - assert (popcount bits ≤ Z.of_nat n); [|destruct b; lia].
    apply IH. intros i Hi. specialize (Hm (S i) Hi). lia.
Qed.

Lemma Marked_received st :
  Inv st → Marked st → received_packets st ≤ chunks_per_frame.
Proof.
  intros [_ _ _ _ ->] HM. rewrite chunks_per_frame_val.
  apply (popcount_marked _ 144). intros i Hi.
  specialize (HM i Hi). rewrite chunks_per_frame_val in HM. lia.
Qed.

(** *** Chunks of the frame being assembled *)

Lemma offer_merge st c :
  Inv st → wf_chunk c → frame_id c = current_frame_id st →
  ∃ evs, offer st c = Some (merge st c, evs)
    ∧ Inv (merge st c)
    ∧ current_frame_id (merge st c) = current_frame_id st
    ∧ expected_packets (merge st c) = expected_packets st.
Proof.
  intros HI Hwf Hid. unfold merge.
  pose proof (start_frame_same st c Hid) as Hsame.
  case_bool_decide as Hacc.
  - destruct Hacc as [Hidx Hoff].
    destruct (offer_stored st c HI Hwf) as (evs & Hoffer & _);
      [by rewrite Hsame|exact Hoff|].
    rewrite Hsame in Hoffer. exists evs.
    split_and!; [exact Hoffer|by apply Inv_store|reflexivity|reflexivity].
  - exists []. rewrite offer_dropped, Hsame; [done|exact Hwf|].
    rewrite Hsame. lia.
Qed.

Lemma merge_comm st c1 c2 :
  Inv st → wf_chunk c1 → wf_chunk c2 →
  packet_index c1 ≠ packet_index c2 →
  merge (merge st c1) c2 = merge (merge st c2) c1.
Proof.
  intros HI Hwf1 Hwf2 Hne. unfold merge.
  destruct (bool_decide (packet_index c1 < expected_packets st
              ∧ packet_index c1 * CHUNK_SIZE < FRAME_BYTES)) eqn:H1;
  destruct (bool_decide (packet_index c2 < expected_packets st
              ∧ packet_index c2 * CHUNK_SIZE < FRAME_BYTES)) eqn:H2;
  cbn [store expected_packets]; rewrite ?H1, ?H2; try reflexivity.
  apply bool_decide_eq_true in H1 as [? ?].
  apply bool_decide_eq_true in H2 as [? ?].
  by apply store_comm.
Qed.

Lemma start_frame_same_header st c1 c2 :
  frame_id c1 = frame_id c2 → total_packets c1 = total_packets c2 →
  start_frame st c1 = start_frame st c2.
Proof.
  intros Hid Htot. unfold start_frame, new_frame. by rewrite Hid, Htot.
Qed.

Lemma offer_two st c1 c2 :
  Inv st → wf_chunk c1 → wf_chunk c2 →
  frame_id c1 = frame_id c2 →
  ∃ evs, offer_all st [c1; c2]
         = Some (merge (merge (start_frame st c1) c1) c2, evs).
Proof.
  intros HI Hwf1 Hwf2 Hid.
  pose proof (Inv_start_frame st c1 HI Hwf1) as HI0.
  destruct (offer_merge (start_frame st c1) c1 HI0 Hwf1)
    as (evs1 & Hoff1 & HI1 & Hid1 & _);
    [by rewrite start_frame_current|].
  destruct (offer_merge _ c2 HI1 Hwf2) as (evs2 & Hoff2 & _).
  { by rewrite Hid1, start_frame_current. }
  exists (evs1 ++ evs2 ++ []).
  cbn [offer_all]. rewrite <- offer_start_frame, Hoff1.
  cbn [mbind option_bind]. rewrite Hoff2. reflexivity.
Qed.

(** *** Further properties of the datagram receiver *)

(** X1: a failed [recv] and a datagram shorter than the 6-byte header are
    skipped: the iteration leaves every reassembly variable as it was and
    makes no call on the display. *)
Theorem X1_short_datagram_skipped
    (recv_buf : list byte) (st : State) (r : recv_result) :
  recv_buf_ok recv_buf →
  match r with
  | recv_failed => True
  | recv_datagram d => Z.of_nat (length d) < HEADER_SIZE
  end →
  ∃ recv_buf',
    iteration recv_buf st r = Some (recv_buf', st, []) ∧ recv_buf_ok recv_buf'.
Proof.
  intros Hrb Hr.
  destruct (iteration_decode recv_buf st r Hrb) as (rb' & Hrb' & ->).
  assert (decode r = None) as ->.
  { destruct r as [|d]; [exact decode_recv_failed|by apply decode_short]. }
  by exists rb'.
Qed.

Lemma X1_short_datagram_skipped_witness :
  ∃ recv_buf',
    iteration initial_recv_buf initial_state
      (recv_datagram [x00; x01; x00; x00; x00])
    = Some (recv_buf', initial_state, []).
Proof.
  destruct (X1_short_datagram_skipped initial_recv_buf initial_state
              (recv_datagram [x00; x01; x00; x00; x00]))
    as (rb & H & _).
  - by_compute.
  - by_compute.
  - exists rb. exact H.
Defined.

(** X2: a datagram of at least 6 bytes is always offered to the reassembly:
    its three header fields are read big-endian and the payload is the bytes
    after the header, cut to the first [CHUNK_SIZE] = 1024 of them.  A
    datagram longer than header plus 1024 bytes is truncated by the size of
    [recv_buf], not rejected. *)
Theorem X2_header_big_endian_payload_truncated
    (recv_buf : list byte) (st : State) (f1 f0 i1 i0 t1 t0 : byte)
    (body : list byte) :
  recv_buf_ok recv_buf →
  let c := {| frame_id := 256 * byte_val f1 + byte_val f0;
              packet_index := 256 * byte_val i1 + byte_val i0;
              total_packets := 256 * byte_val t1 + byte_val t0;
              payload := take (Z.to_nat CHUNK_SIZE) body |} in
  wf_chunk c
  ∧ ∃ recv_buf', recv_buf_ok recv_buf'
      ∧ iteration recv_buf st
          (recv_datagram (f1 :: f0 :: i1 :: i0 :: t1 :: t0 :: body))
        = ('(st', evs) ← offer st c; Some (recv_buf', st', evs)).
Proof.
  intros Hrb c.
  pose proof (decode_header f1 f0 i1 i0 t1 t0 body) as Hdec. fold c in Hdec.
  split; [exact (decode_wf _ _ Hdec)|].
  destruct (iteration_decode recv_buf st
              (recv_datagram (f1 :: f0 :: i1 :: i0 :: t1 :: t0 :: body)) Hrb)
    as (rb' & Hrb' & ->).
  exists rb'. split; [exact Hrb'|]. rewrite Hdec. reflexivity.
Qed.

Lemma X2_header_big_endian_payload_truncated_witness :
  ∃ recv_buf',
    iteration initial_recv_buf initial_state
      (recv_datagram [x01; x02; x00; x03; x00; x90; xaa])
    = ('(st', evs) ← offer initial_state
                       {| frame_id := 256 * byte_val x01 + byte_val x02;
                          packet_index := 256 * byte_val x00 + byte_val x03;
                          total_packets := 256 * byte_val x00 + byte_val x90;
                          payload := take (Z.to_nat CHUNK_SIZE) [xaa] |};
       Some (recv_buf', st', evs)).
Proof.
  destruct (X2_header_big_endian_payload_truncated initial_recv_buf
              initial_state x01 x02 x00 x03 x00 x90 [xaa])
    as (_ & rb & _ & H).
  - by_compute.
  - exists rb. exact H.
Defined.

(** X3: what an iteration does to the reassembly state and to the display
    does not depend on the bytes left in [recv_buf] by earlier datagrams:
    only the datagram just received is parsed. *)
Theorem X3_stale_recv_buf_not_parsed
    (rb1 rb2 : list byte) (st : State) (r : recv_result) :
  recv_buf_ok rb1 → recv_buf_ok rb2 →
  (λ res : list byte * State * list Event, (res.1.2, res.2))
    <$> iteration rb1 st r
  = (λ res : list byte * State * list Event, (res.1.2, res.2))
    <$> iteration rb2 st r.
Proof.
  intros H1 H2.
  destruct (iteration_decode rb1 st r H1) as (rb1' & _ & ->).
  destruct (iteration_decode rb2 st r H2) as (rb2' & _ & ->).
  destruct (decode r) as [c|]; [|reflexivity].
  destruct (offer st c) as [[st' evs]|]; reflexivity.
Qed.

Lemma X3_stale_recv_buf_not_parsed_witness :
  (λ res : list byte * State * list Event, (res.1.2, res.2))
    <$> iteration initial_recv_buf initial_state (recv_datagram [x00; x01])
  = (λ res : list byte * State * list Event, (res.1.2, res.2))
    <$> iteration (replicate (Z.to_nat 1030) xff) initial_state
          (recv_datagram [x00; x01]).
Proof.
  apply (X3_stale_recv_buf_not_parsed initial_recv_buf
           (replicate (Z.to_nat 1030) xff) initial_state
           (recv_datagram [x00; x01])); by_compute.
Defined.

(** X4: a chunk that passes both range checks is written whole: its payload
    lands at byte offset [packet_index * CHUNK_SIZE], never clamped, every
    other byte of the frame buffer stays as it was, and the chunk is
    marked in the bitmap. *)
Theorem X4_accepted_chunk_written_whole (st : State) (c : Chunk) :
  Inv st → wf_chunk c →
  let st1 := start_frame st c in
  let off := packet_index c * CHUNK_SIZE in
  let len := Z.of_nat (length (payload c)) in
  packet_index c < expected_packets st1 →
  packet_index c < chunks_per_frame →
  ∃ st' evs,
    offer st c = Some (st', evs)
    ∧ off + len ≤ FRAME_BYTES
    ∧ length (frame_buf st') = length (frame_buf st1)
    ∧ (∀ k : nat, off ≤ Z.of_nat k < off + len →
         frame_buf st' !! k = payload c !! (k - Z.to_nat off)%nat)
    ∧ (∀ k : nat, ¬ (off ≤ Z.of_nat k < off + len) →
         frame_buf st' !! k = frame_buf st1 !! k)
    ∧ got_packet st' = <[Z.to_nat (packet_index c) := true]> (got_packet st1)
    ∧ current_frame_id st' = frame_id c
    ∧ expected_packets st' = expected_packets st1.
Proof.
  intros HI Hwf st1 off len Hidx Hidx'.
  assert (packet_index c * CHUNK_SIZE < FRAME_BYTES) as Hoff.
  { rewrite FRAME_BYTES_chunks, CHUNK_SIZE_val.
    rewrite chunks_per_frame_val in Hidx'. lia. }
  pose proof (Inv_start_frame st c HI Hwf) as HI1. fold st1 in HI1.
  destruct (offer_stored st c HI Hwf Hidx Hoff) as (evs & Hoffer & _).
  pose proof (store_in_range st1 c HI1 Hwf Hoff) as Hfit.
  pose proof (wf_packet_index _ Hwf) as [Hi0 _].
  assert (0 ≤ off) as Hoff0 by (unfold off; rewrite CHUNK_SIZE_val; lia).
  exists (store st1 c), evs. split_and!.
  - exact Hoffer.
  - destruct HI1 as [Hfb _ _ _ _]. unfold off, len. lia.
  - by apply store_frame_buf_length; [apply HI1|..].
  - intros k Hk. rewrite store_lookup by exact Hfit.
    rewrite bool_decide_eq_true_2; [reflexivity|]. unfold off, len in Hk. lia.
  - intros k Hk. rewrite store_lookup by exact Hfit.
    rewrite bool_decide_eq_false_2; [reflexivity|]. unfold off, len in Hk. lia.
  - reflexivity.
  - apply start_frame_current.
  - reflexivity.
Qed.

Lemma X4_accepted_chunk_written_whole_witness :
  ∃ st' evs,
    offer initial_state f1_c1 = Some (st', evs)
    ∧ got_packet st'
      = <[Z.to_nat (packet_index f1_c1) := true]>
          (got_packet (start_frame initial_state f1_c1)).
Proof.
  destruct (X4_accepted_chunk_written_whole initial_state f1_c1)
    as (st' & evs & H1 & _ & _ & _ & _ & H2 & _).
  - exact Inv_initial_state.
  - split; by_compute.
  - by_compute.
  - by_compute.
  - exists st', evs. split; [exact H1|exact H2].
Defined.

(** X5: a duplicate changes nothing.  Offering to the state a chunk has just
    produced the same chunk again gives the same state and the same driver
    calls: the bytes are rewritten in place and the chunk is not counted
    twice; a duplicate of the chunk that completed the frame presents the
    frame again. *)
Theorem X5_duplicate_chunk_idempotent
    (st : State) (c : Chunk) (st1 : State) (evs1 : list Event) :
  Inv st → wf_chunk c →
  offer st c = Some (st1, evs1) → offer st1 c = Some (st1, evs1).
Proof.
  intros HI Hwf Hoff.
  pose proof (Inv_start_frame st c HI Hwf) as HI0.
  pose proof (offer_current_frame_id _ _ _ _ HI Hwf Hoff) as Hid.
  destruct (offer_result _ _ _ _ HI Hwf Hoff)
    as [[-> ->]|(-> & Hidx & Hin & Hevs)].
  - rewrite offer_start_frame. exact Hoff.
  - set (s0 := start_frame st c) in *.
    pose proof (Inv_store s0 c HI0 Hwf Hidx Hin) as HI1.
    assert (start_frame (store s0 c) c = store s0 c) as Hsame
      by (apply start_frame_same; by rewrite Hid).
    destruct (offer_stored (store s0 c) c HI1 Hwf) as (evs & Hoffer & Hevs');
      [by rewrite Hsame|exact Hin|].
    rewrite Hsame, store_idemp in Hoffer, Hevs' by done.
    rewrite Hoffer. f_equal. f_equal.
    destruct (bool_decide (received_packets (store s0 c)
                           = expected_packets (store s0 c))); congruence.
Qed.

Lemma X5_duplicate_chunk_idempotent_witness :
  ∃ st1 evs1,
    offer initial_state f1_c0 = Some (st1, evs1)
    ∧ offer st1 f1_c0 = Some (st1, evs1).
Proof.
  destruct (offer_Inv initial_state f1_c0) as (st1 & evs1 & H & _).
  - exact Inv_initial_state.
  - split; by_compute.
  - exists st1, evs1. split; [exact H|].
    apply (X5_duplicate_chunk_idempotent initial_state f1_c0 st1 evs1).
    + exact Inv_initial_state.
    + split; by_compute.
    + exact H.
Defined.

(** X6: two chunks of one frame with different packet indices can arrive in
    either order: the frame buffer, the bitmap, the count and the frame
    variables end up the same. *)
Theorem X6_chunks_of_a_frame_commute (st : State) (c1 c2 : Chunk) :
  Inv st → wf_chunk c1 → wf_chunk c2 →
  frame_id c1 = frame_id c2 → total_packets c1 = total_packets c2 →
  packet_index c1 ≠ packet_index c2 →
  ∃ st' evs12 evs21,
    offer_all st [c1; c2] = Some (st', evs12)
    ∧ offer_all st [c2; c1] = Some (st', evs21).
Proof.
  intros HI Hwf1 Hwf2 Hid Htot Hne.
  destruct (offer_two st c1 c2 HI Hwf1 Hwf2 Hid) as (evs12 & H12).
  destruct (offer_two st c2 c1 HI Hwf2 Hwf1 (eq_sym Hid)) as (evs21 & H21).
  rewrite <- (start_frame_same_header st c1 c2 Hid Htot) in H21.
  rewrite <- merge_comm in H21;
    [|by apply Inv_start_frame|exact Hwf1|exact Hwf2|exact Hne].
  eexists _, evs12, evs21. split; [exact H12|exact H21].
Qed.

Lemma X6_chunks_of_a_frame_commute_witness :
  ∃ st' evs12 evs21,
    offer_all initial_state [f1_c0; f1_c1] = Some (st', evs12)
    ∧ offer_all initial_state [f1_c1; f1_c0] = Some (st', evs21).
Proof.
  destruct (X6_chunks_of_a_frame_commute initial_state f1_c0 f1_c1)
    as (st' & evs12 & evs21 & H1 & H2).
  - exact Inv_initial_state.
  - split; by_compute.
  - split; by_compute.
  - by_compute.
  - by_compute.
  - by_compute.
  - exists st', evs12, evs21. split; [exact H1|exact H2].
Defined.

(** X7: whatever datagrams arrive, the loop keeps its buffers in shape:
    [recv_buf] and [frame_buf] keep their sizes, the bitmap has
    [expected_packets] entries, only indices below 144 (the chunks that fit
    the frame buffer) are ever marked, and [received_packets] stays between
    0 and both [expected_packets] and 144. *)
Theorem X7_reassembly_bounds (rs : list recv_result) :
  ∃ recv_buf st evs,
    run initial_recv_buf initial_state rs = Some (recv_buf, st, evs)
    ∧ Z.of_nat (length recv_buf) = HEADER_SIZE + CHUNK_SIZE
    ∧ Z.of_nat (length (frame_buf st)) = FRAME_BYTES
    ∧ Z.of_nat (length (got_packet st)) = expected_packets st
    ∧ (∀ i : nat, got_packet st !! i = Some true →
                  Z.of_nat i < chunks_per_frame)
    ∧ 0 ≤ received_packets st ≤ expected_packets st
    ∧ received_packets st ≤ chunks_per_frame.
Proof.
  destruct (run_total rs) as (rb & st & evs & Hrun & Hall & Hrb & HI & _).
  destruct (Marked_offer_all _ _ _ _ Inv_initial_state Marked_initial
              (decode_all_wf rs) Hall) as [_ HM].
  exists rb, st, evs. split_and!.
  - exact Hrun.
  - exact Hrb.
  - apply HI.
  - apply HI.
  - exact HM.
  - destruct HI as [_ _ _ _ ->]. apply popcount_bounds.
  - destruct HI as [_ _ _ <- ->]. apply popcount_bounds.
  - by apply Marked_received.
Qed.


End UdpReceiverProofs.

(** ** The stream daemon *)

Module MatrixDaemonProofs.
Import MatrixDaemon.

#[local] Arguments expected_size : simpl never.
#[local] Arguments LOGICAL_WIDTH : simpl never.
#[local] Arguments LOGICAL_HEIGHT : simpl never.

(** *** Reading from a socket *)

Lemma expected_size_val : expected_size = 147456.
Proof. reflexivity. Qed.

Lemma readable_Data bytes fd :
  bytes ≠ [] → readable (Data bytes :: fd) = bytes ++ readable fd.
Proof. by destruct bytes. Qed.

Lemma readable_pieces pieces closing :
  Forall (λ p, p ≠ []) pieces →
  readable ((Data <$> pieces) ++ closing) = concat pieces ++ readable closing.
Proof.
  induction 1 as [|p pieces Hp _ IH]; [done|].
  cbn [fmap list_fmap app concat]. rewrite readable_Data by done.
  change (list_fmap _ _ ?f ?l) with (f <$> l). by rewrite IH, app_assoc.
Qed.

(** [ReadNBytes] in terms of the bytes the socket can deliver. *)
Lemma ReadNBytes_loop_spec fd : ∀ buf n total,
  0 ≤ total ≤ n → n < 2 ^ 32 → n ≤ Z.of_nat (length buf) →
  (n - total ≤ Z.of_nat (length (readable fd)) →
   ∃ fd', ReadNBytes_loop fd buf n total =
            Some (true,
                  take (Z.to_nat total) buf
                  ++ take (Z.to_nat (n - total)) (readable fd)
                  ++ drop (Z.to_nat n) buf, fd')
          ∧ readable fd' = drop (Z.to_nat (n - total)) (readable fd))
  ∧ (Z.of_nat (length (readable fd)) < n - total →
     ∃ fd', ReadNBytes_loop fd buf n total =
              Some (false,
                    take (Z.to_nat total) buf ++ readable fd
                    ++ drop (Z.to_nat total + length (readable fd)) buf, fd')).
Proof.
  induction fd as [fd IH] using socket_ind. intros buf n total Htot Hn Hbuf.
  rewrite ReadNBytes_loop_eq.
  destruct (decide (total < n)) as [Hloop|Hdone]; cycle 1.
  { (* total = n: the loop is not entered *)
    assert (total = n) as -> by lia.
    rewrite bool_decide_eq_false_2 by lia. split; [intros _|lia]. exists fd.
    rewrite Z.sub_diag. change (Z.to_nat 0) with 0%nat.
    by rewrite take_0, drop_0, app_nil_l, take_drop. }
  rewrite (bool_decide_eq_true_2 (total < n)) by done.
  rewrite size_t_small by lia.
  destruct fd as [|[bytes|] fd0].
  - (* end of stream *)
    cbn [recv readable length]. rewrite bool_decide_eq_true_2 by lia.
    split; [lia|intros _]. exists [].
    cbn [app]. rewrite Nat.add_0_r. by rewrite take_drop.
  - destruct bytes as [|b bytes].
    { (* a read of zero bytes *)
      cbn [recv readable length].
      rewrite (bool_decide_eq_true_2 (_ ≤ n - total)) by lia.
      rewrite bool_decide_eq_true_2 by lia.
      split; [lia|intros _]. exists fd0.
      cbn [app]. rewrite Nat.add_0_r. by rewrite take_drop. }
    remember (b :: bytes) as seg eqn:Heqseg.
    assert (seg ≠ []) as Hne by by subst.
    assert (0 < Z.of_nat (length seg)) as Hseg by (subst; cbn [length]; lia).
    clear Heqseg. rewrite readable_Data by done. cbn [recv]. rewrite length_app.
    case_bool_decide as Hfit.
    + (* the whole piece fits: store it and read on *)
      rewrite bool_decide_eq_false_2 by lia.
      rewrite memcpy_Some by lia. cbn [mbind option_bind].
      rewrite size_t_small by lia. rewrite Nat2Z.id, firstn_all.
      set (buf1 := take (Z.to_nat total) buf ++ seg ++ drop _ buf).
      assert (length buf1 = length buf) as Hlen1.
      { unfold buf1. rewrite !length_app, length_take, length_drop. lia. }
      assert (take (Z.to_nat (total + Z.of_nat (length seg))) buf1
              = take (Z.to_nat total) buf ++ seg) as Htake.
      { unfold buf1. rewrite app_assoc. rewrite take_app_length'; [done|].
        rewrite length_app, length_take. lia. }
      destruct (IH fd0 ltac:(cbn [socket_bytes]; lia) buf1 n
                  (total + Z.of_nat (length seg))) as [IHok IHfail];
        [lia|lia|lia|].
      split; intros Hs.
      * destruct IHok as (fd' & -> & Hfd'); [lia|]. exists fd'.
        assert (Z.to_nat (n - (total + Z.of_nat (length seg)))
                = (Z.to_nat (n - total) - length seg)%nat) as Heq by lia.
        split.
        -- do 3 f_equal. rewrite Htake, Heq, <- app_assoc.
           rewrite (take_app_ge seg) by lia. rewrite <- app_assoc.
           do 3 f_equal.
           unfold buf1. rewrite !drop_app_ge by (rewrite ?length_take; lia).
           rewrite drop_drop, length_take. f_equal. lia.
        -- rewrite Hfd', Heq. by rewrite drop_app_ge by lia.
      * destruct IHfail as (fd' & ->); [lia|]. exists fd'.
        do 3 f_equal. rewrite Htake. rewrite <- !app_assoc. do 3 f_equal.
        unfold buf1. rewrite !drop_app_ge by (rewrite ?length_take; lia).
        rewrite drop_drop, length_take. f_equal. lia.
    + (* more than asked for: take the rest of the frame, leave the rest
         of the piece in the socket *)
      rewrite bool_decide_eq_false_2 by lia.
      rewrite memcpy_Some by (rewrite ?length_take; lia).
      cbn [mbind option_bind]. rewrite size_t_small by lia.
      replace (total + (n - total)) with n by lia.
      rewrite ReadNBytes_loop_eq, bool_decide_eq_false_2 by lia.
      split; [intros _|lia]. eexists. split.
      * do 3 f_equal. rewrite take_take, Nat.min_id.
        by rewrite take_app_le by lia.
      * rewrite readable_Data; [by rewrite drop_app_le by lia|].
        intros Hnil. apply (f_equal length) in Hnil.
        rewrite length_drop in Hnil. cbn [length] in Hnil. lia.
  - (* a failed read *)
    cbn [recv readable length]. rewrite bool_decide_eq_true_2 by lia.
    split; [lia|intros _]. exists fd0.
    cbn [app]. rewrite Nat.add_0_r. by rewrite take_drop.
Qed.

(** *** The drawing loop *)

Lemma LOGICAL_WIDTH_val : LOGICAL_WIDTH = 256.
Proof. reflexivity. Qed.

Lemma LOGICAL_HEIGHT_val : LOGICAL_HEIGHT = 192.
Proof. reflexivity. Qed.

Lemma lookup_byte_at (buffer : list byte) idx :
  0 ≤ idx < Z.of_nat (length buffer) →
  buffer !! Z.to_nat idx = Some (byte_at buffer idx).
Proof.
  intros Hidx. unfold byte_at.
  destruct (lookup_lt_is_Some_2 buffer (Z.to_nat idx)) as [b ->]; [lia|done].
Qed.

Lemma pixel_ext buffer X X' Y Y' idx idx' :
  X = X' → Y = Y' → idx = idx' → pixel buffer X Y idx = pixel buffer X' Y' idx'.
Proof. by intros -> -> ->. Qed.

Lemma draw_row_spec n : ∀ X Y idx buffer,
  0 ≤ idx → idx + 3 * Z.of_nat n ≤ Z.of_nat (length buffer) →
  ∃ evs, draw_row n X Y idx buffer = Some (evs, idx + 3 * Z.of_nat n)
    ∧ length evs = n
    ∧ ∀ j : nat, (j < n)%nat →
        evs !! j = Some (pixel buffer (X + Z.of_nat j) Y (idx + 3 * Z.of_nat j)).
Proof.
  induction n as [|n IH]; intros X Y idx buffer Hidx Hlen.
  - exists []. cbn [draw_row]. split_and!; [f_equal; f_equal; lia|done|lia].
  - cbn [draw_row]. rewrite !lookup_byte_at by lia. cbn [mbind option_bind].
    destruct (IH (X + 1) Y (idx + 3) buffer) as (evs & -> & Hn & Hevs); [lia..|].
    cbn [mbind option_bind]. eexists. split_and!.
    + do 2 f_equal. lia.
    + cbn [length]. by rewrite Hn.
    + intros [|j] Hj; cbn [lookup list_lookup].
      * f_equal. apply pixel_ext; lia.
      * change (evs !! j = Some (pixel buffer (X + Z.of_nat (S j)) Y (idx + 3 * Z.of_nat (S j)))).
        rewrite Hevs by lia. f_equal. apply pixel_ext; lia.
Qed.

Lemma draw_rows_spec n : ∀ y_buf idx buffer,
  0 ≤ idx →
  idx + 3 * LOGICAL_WIDTH * Z.of_nat n ≤ Z.of_nat (length buffer) →
  ∃ evs, draw_rows n y_buf idx buffer = Some evs
    ∧ Z.of_nat (length evs) = Z.of_nat n * LOGICAL_WIDTH
    ∧ ∀ r X : Z, 0 ≤ r < Z.of_nat n → 0 ≤ X < LOGICAL_WIDTH →
        evs !! Z.to_nat (r * LOGICAL_WIDTH + X) =
          Some (pixel buffer X (LOGICAL_HEIGHT - 1 - (y_buf + r))
                  (idx + 3 * (r * LOGICAL_WIDTH + X))).
Proof.
  induction n as [|n IH]; intros y_buf idx buffer Hidx Hlen.
  - exists []. split_and!; [done|done|lia].
  - cbn [draw_rows]. cbv zeta.
    destruct (draw_row_spec (Z.to_nat LOGICAL_WIDTH) 0 (LOGICAL_HEIGHT - 1 - y_buf)
                idx buffer) as (row & -> & Hrow & Hpix);
      [lia|rewrite LOGICAL_WIDTH_val in *; lia|].
    cbn [mbind option_bind].
    destruct (IH (y_buf + 1) (idx + 3 * Z.of_nat (Z.to_nat LOGICAL_WIDTH)) buffer)
      as (rest & -> & Hrest & Hpix'); [rewrite LOGICAL_WIDTH_val in *; lia..|].
    cbn [mbind option_bind]. eexists. split_and!; [done| |].
    + rewrite length_app, Hrow. rewrite LOGICAL_WIDTH_val in *. lia.
    + intros r X Hr HX. rewrite LOGICAL_WIDTH_val in *.
      destruct (decide (r = 0)) as [->|Hr0].
      * rewrite lookup_app_l by lia. rewrite Hpix by lia.
        f_equal. apply pixel_ext; lia.
      * rewrite lookup_app_r by lia. rewrite Hrow.
        replace (Z.to_nat (r * 256 + X) - Z.to_nat 256)%nat
          with (Z.to_nat ((r - 1) * 256 + X)) by lia.
        rewrite Hpix' by lia. f_equal. apply pixel_ext; lia.
Qed.

(** All the driver calls for one frame. *)
Lemma present_spec buffer :
  Z.of_nat (length buffer) = expected_size →
  ∃ evs, present buffer = Some (evs ++ [SwapOnVSync])
    ∧ Z.of_nat (length evs) = LOGICAL_WIDTH * LOGICAL_HEIGHT
    ∧ ∀ y_buf X : Z, 0 ≤ y_buf < LOGICAL_HEIGHT → 0 ≤ X < LOGICAL_WIDTH →
        evs !! Z.to_nat (y_buf * LOGICAL_WIDTH + X) =
          Some (pixel buffer X (LOGICAL_HEIGHT - 1 - y_buf)
                  (3 * (y_buf * LOGICAL_WIDTH + X))).
Proof.
  intros Hlen. unfold present.
  destruct (draw_rows_spec (Z.to_nat LOGICAL_HEIGHT) 0 0 buffer)
    as (evs & -> & Hn & Hpix); [done| |].
  { rewrite Hlen, expected_size_val, LOGICAL_WIDTH_val, LOGICAL_HEIGHT_val. lia. }
  exists evs. cbn [mbind option_bind]. split_and!; [done| |].
  - rewrite Hn, LOGICAL_HEIGHT_val. lia.
  - intros y_buf X Hy HX. rewrite Hpix by (rewrite LOGICAL_HEIGHT_val in *; lia).
    f_equal.
Qed.

Lemma present_shown buffer :
  Z.of_nat (length buffer) = expected_size → present buffer = Some (shown buffer).
Proof.
  intros Hlen. unfold shown.
  by destruct (present_spec buffer Hlen) as (evs & -> & _).
Qed.

(** Different frames are drawn differently, so the trace identifies the frame. *)
Lemma shown_inj b1 b2 :
  Z.of_nat (length b1) = expected_size → Z.of_nat (length b2) = expected_size →
  shown b1 = shown b2 → b1 = b2.
Proof.
  intros H1 H2. unfold shown.
  destruct (present_spec b1 H1) as (evs1 & -> & Hn1 & Hpix1).
  destruct (present_spec b2 H2) as (evs2 & -> & Hn2 & Hpix2).
  cbn [default]. intros Heq%app_inv_tail. subst evs2.
  rewrite expected_size_val, LOGICAL_WIDTH_val, LOGICAL_HEIGHT_val in *.
  apply list_eq. intros i.
  destruct (decide (Z.of_nat i < 147456)) as [Hi|Hi]; cycle 1.
  { by rewrite !lookup_ge_None_2 by lia. }
  set (k := Z.of_nat i / 3).
  assert (0 ≤ k < 256 * 192) as Hk.
  { split; [apply Z.div_pos; lia|apply Z.div_lt_upper_bound; lia]. }
  assert (0 ≤ k `div` 256 < 192 ∧ 0 ≤ k `mod` 256 < 256) as [Hy HX].
  { split; [|apply Z.mod_pos_bound; lia].
    split; [apply Z.div_pos; lia|apply Z.div_lt_upper_bound; lia]. }
  pose proof (Hpix1 _ _ Hy HX) as E1. pose proof (Hpix2 _ _ Hy HX) as E2.
  rewrite E1 in E2. injection E2 as Er Eg Eb.
  assert (k `div` 256 * 256 + k `mod` 256 = k) as Hkk
    by (pose proof (Z.div_mod k 256); lia).
  rewrite Hkk in *.
  pose proof (Z.div_mod (Z.of_nat i) 3) as Hi3.
  pose proof (Z.mod_pos_bound (Z.of_nat i) 3) as Hm3. fold k in Hi3.
  rewrite <- (Nat2Z.id i).
  rewrite !lookup_byte_at by lia. f_equal.
  destruct (decide (Z.of_nat i `mod` 3 = 0)) as [E|?];
    [replace (Z.of_nat i) with (3 * k) by lia; done|].
  destruct (decide (Z.of_nat i `mod` 3 = 1)) as [E|?];
    [replace (Z.of_nat i) with (3 * k + 1) by lia; done|].
  replace (Z.of_nat i) with (3 * k + 2) by lia; done.
Qed.

(** *** Serving a client *)

(** The serving loop written as the source has it. *)
Lemma serve_client_eq fd buffer :
  serve_client fd buffer =
    match ReadNBytes fd buffer expected_size with
    | None => None
    | Some (false, buffer', _) => Some ([], buffer')
    | Some (true, buffer', fd') =>
        evs ← present buffer';
        '(rest, buffer'') ← serve_client fd' buffer';
        Some (evs ++ rest, buffer'')
    end.
Proof.
  funelim (serve_client fd buffer);
    match goal with H : ReadNBytes _ _ _ = _ |- _ => rewrite H end;
    rewrite ?Heq, ?Heq0; done.
Qed.

Lemma slices_length k stream : length (slices k stream) = k.
Proof. revert stream. induction k; intros; cbn [slices length]; auto. Qed.

Lemma slices_lookup k stream (J : nat) :
  (J < k)%nat →
  slices k stream !! J =
    Some (take (Z.to_nat expected_size)
            (drop (J * Z.to_nat expected_size) stream)).
Proof.
  revert stream J. induction k as [|k IH]; intros stream [|J] HJ;
    cbn [slices lookup list_lookup]; try lia.
  - done.
  - change (slices k (drop (Z.to_nat expected_size) stream) !! J =
            Some (take (Z.to_nat expected_size)
                    (drop (S J * Z.to_nat expected_size) stream))).
    rewrite IH by lia. by rewrite drop_drop.
Qed.

Lemma slices_frame_length k stream :
  (k * Z.to_nat expected_size ≤ length stream)%nat →
  Forall (λ f, Z.of_nat (length f) = expected_size) (slices k stream).
Proof.
  revert stream. induction k as [|k IH]; intros stream Hk; cbn [slices];
    constructor.
  - rewrite length_take. rewrite expected_size_val in *. lia.
  - apply IH. rewrite length_drop. lia.
Qed.

Lemma full_slices_short stream :
  Z.of_nat (length stream) < expected_size → full_slices stream = [].
Proof.
  intros Hlen. unfold full_slices.
  rewrite Nat.div_small; [done|]. rewrite expected_size_val in *. lia.
Qed.

Lemma full_slices_long stream :
  expected_size ≤ Z.of_nat (length stream) →
  full_slices stream =
    take (Z.to_nat expected_size) stream
    :: full_slices (drop (Z.to_nat expected_size) stream).
Proof.
  intros Hlen. unfold full_slices. rewrite length_drop.
  rewrite expected_size_val in *.
  set (n := Z.to_nat 147456) in *.
  assert (length stream = (1 * n + (length stream - n))%nat) as Hsplit by lia.
  rewrite Hsplit at 1. rewrite Nat.div_add_l by lia. done.
Qed.

Lemma full_slices_exact (K : nat) stream :
  Z.of_nat (length stream) = expected_size * Z.of_nat K →
  full_slices stream = slices K stream.
Proof.
  intros Hlen. unfold full_slices. f_equal.
  rewrite expected_size_val in *.
  assert (length stream = (K * Z.to_nat 147456)%nat) as -> by lia.
  apply Nat.div_mul. lia.
Qed.

(** A whole frame is available: short reads are retried until the buffer
    holds exactly the first [expected_size] bytes of the stream. *)
Lemma ReadNBytes_frame fd buffer :
  Z.of_nat (length buffer) = expected_size →
  expected_size ≤ Z.of_nat (length (readable fd)) →
  ∃ fd', ReadNBytes fd buffer expected_size
         = Some (true, take (Z.to_nat expected_size) (readable fd), fd')
    ∧ readable fd' = drop (Z.to_nat expected_size) (readable fd)
    ∧ (socket_bytes fd' < socket_bytes fd)%nat.
Proof.
  intros Hlen Hlong. unfold ReadNBytes.
  destruct (ReadNBytes_loop_spec fd buffer expected_size 0) as [Hok _];
    [rewrite ?Hlen, expected_size_val; lia..|].
  destruct Hok as (fd' & Hread & Hfd'); [lia|].
  rewrite Z.sub_0_r in Hread, Hfd'.
  rewrite take_0, app_nil_l in Hread.
  rewrite drop_ge, app_nil_r in Hread by lia.
  exists fd'. split_and!; [exact Hread|exact Hfd'|].
  eapply ReadNBytes_loop_consumes; [exact Hread|].
  rewrite expected_size_val. lia.
Qed.

(** The stream ends, or a read fails, inside a frame. *)
Lemma ReadNBytes_short fd buffer :
  Z.of_nat (length buffer) = expected_size →
  Z.of_nat (length (readable fd)) < expected_size →
  ∃ fd', ReadNBytes fd buffer expected_size
         = Some (false,
                 readable fd ++ drop (length (readable fd)) buffer, fd').
Proof.
  intros Hlen Hshort. unfold ReadNBytes.
  destruct (ReadNBytes_loop_spec fd buffer expected_size 0) as [_ Hfail];
    [rewrite ?Hlen, expected_size_val; lia..|].
  destruct Hfail as (fd' & Hread); [lia|].
  rewrite take_0, app_nil_l in Hread. exists fd'. exact Hread.
Qed.

(** What serving a client does, whatever the socket delivers: the complete
    frames of the readable stream are presented in order and nothing else. *)
Lemma serve_client_spec fd : ∀ buffer,
  Z.of_nat (length buffer) = expected_size →
  ∃ buffer', serve_client fd buffer
             = Some (concat (shown <$> full_slices (readable fd)), buffer')
    ∧ Z.of_nat (length buffer') = expected_size.
Proof.
  induction fd as [fd IH] using socket_ind. intros buffer Hlen.
  rewrite serve_client_eq.
  destruct (decide (expected_size ≤ Z.of_nat (length (readable fd))))
    as [Hlong|Hshort].
  - destruct (ReadNBytes_frame fd buffer Hlen Hlong) as (fd' & -> & Hfd' & Hlt).
    assert (Z.of_nat (length (take (Z.to_nat expected_size) (readable fd)))
            = expected_size) as Hframe.
    { rewrite length_take. rewrite expected_size_val in *. lia. }
    rewrite (present_shown _ Hframe).
    destruct (IH fd' Hlt _ Hframe) as (buffer' & Hrest & Hlen').
    exists buffer'. split; [|exact Hlen'].
    rewrite (full_slices_long (readable fd) Hlong), fmap_cons, <- Hfd'.
    cbn [concat mbind option_bind]. rewrite Hrest. reflexivity.
  - destruct (ReadNBytes_short fd buffer Hlen) as (fd' & ->); [lia|].
    eexists. split.
    + rewrite full_slices_short by lia. reflexivity.
    + rewrite !length_app, length_drop.
      rewrite expected_size_val in *. lia.
Qed.

(** *** Counting the frames presented *)

Lemma swaps_app evs1 evs2 : swaps (evs1 ++ evs2) = (swaps evs1 + swaps evs2)%nat.
Proof. induction evs1 as [|[] evs1 IH]; simpl; lia. Qed.

Lemma swaps_pixels (evs : list Event) :
  (∀ k e, evs !! k = Some e → ∃ x y r g b, e = SetPixel x y r g b) →
  swaps evs = O.
Proof.
  induction evs as [|e evs IH]; intros H; [done|].
  destruct (H O e eq_refl) as (x & y & r & g & b & ->). simpl.
  apply IH. intros k e' Hk. apply (H (S k) e' Hk).
Qed.

(** Every pixel call of a frame, by its position in the trace. *)
Lemma present_pixels buffer evs (k : nat) :
  Z.of_nat (length buffer) = expected_size →
  present buffer = Some (evs ++ [SwapOnVSync]) →
  (k < length evs)%nat →
  evs !! k = Some (pixel buffer (Z.of_nat k `mod` LOGICAL_WIDTH)
                     (LOGICAL_HEIGHT - 1 - Z.of_nat k `div` LOGICAL_WIDTH)
                     (3 * Z.of_nat k)).
Proof.
  intros Hlen Hpres Hk.
  destruct (present_spec buffer Hlen) as (evs' & Hpres' & Hn & Hpix).
  rewrite Hpres in Hpres'. injection Hpres' as ->%app_inv_tail.
  rewrite LOGICAL_WIDTH_val, LOGICAL_HEIGHT_val in *.
  pose proof (Z.div_mod (Z.of_nat k) 256).
  pose proof (Z.mod_pos_bound (Z.of_nat k) 256).
  assert (0 ≤ Z.of_nat k `div` 256 < 192).
  { split; [apply Z.div_pos; lia|apply Z.div_lt_upper_bound; lia]. }
  specialize (Hpix (Z.of_nat k `div` 256) (Z.of_nat k `mod` 256)).
  replace (Z.to_nat (Z.of_nat k `div` 256 * 256 + Z.of_nat k `mod` 256))
    with k in Hpix by lia.
  rewrite Hpix by lia. f_equal. apply pixel_ext; lia.
Qed.

Lemma swaps_shown frame :
  Z.of_nat (length frame) = expected_size → swaps (shown frame) = 1%nat.
Proof.
  intros Hlen. pose proof (present_shown frame Hlen) as Hshown.
  destruct (present_spec frame Hlen) as (evs & Hpres & _).
  rewrite Hpres in Hshown. injection Hshown as <-.
  rewrite swaps_app. rewrite swaps_pixels; [done|].
  intros k e Hk. pose proof (lookup_lt_Some _ _ _ Hk).
  rewrite (present_pixels frame evs k Hlen Hpres) in Hk by done.
  injection Hk as <-. unfold pixel. by eexists _, _, _, _, _.
Qed.

Lemma swaps_frames frames :
  Forall (λ f, Z.of_nat (length f) = expected_size) frames →
  swaps (concat (shown <$> frames)) = length frames.
Proof.
  induction 1 as [|f frames Hf _ IH]; [done|].
  cbn [fmap list_fmap concat length]. rewrite swaps_app, swaps_shown by done.
  change (list_fmap _ _ ?f ?l) with (f <$> l). by rewrite IH.
Qed.

Lemma disconnects_readable fd : disconnects fd → readable fd = [].
Proof. by destruct fd as [|[[|b bytes]|] fd]. Qed.

Lemma accept_loop_client fd conns buffer evs buffer' :
  serve_client fd buffer = Some (evs, buffer') →
  accept_loop (accept_client fd :: conns) buffer =
    ('(evs', b) ← accept_loop conns buffer'; Some (evs ++ evs', b)).
Proof. intros Hserve. cbn [accept_loop]. rewrite Hserve. reflexivity. Qed.

(** *** The embedding on concrete inputs *)

(** A stream of two 8-byte frames arriving as AAAA, AAAABB, BBBBBB: the
    first call leaves BB queued, the second one completes the second frame
    from two pieces, the third one sees the end of the stream. *)
Example ReadNBytes_split_reads :
  ReadNBytes [Data [x41; x41; x41; x41];
              Data [x41; x41; x41; x41; x42; x42];
              Data [x42; x42; x42; x42; x42; x42]]
             (replicate 8 x00) 8
  = Some (true, replicate 8 x41,
          [Data [x42; x42]; Data [x42; x42; x42; x42; x42; x42]])
  ∧ ReadNBytes [Data [x42; x42]; Data [x42; x42; x42; x42; x42; x42]]
               (replicate 8 x41) 8
    = Some (true, replicate 8 x42, [])
  ∧ ReadNBytes [] (replicate 8 x42) 8 = Some (false, replicate 8 x42, []).
Proof. by_compute. Qed.

(** A read error inside a frame: the bytes read so far stay in the buffer and
    the call fails. *)
Example ReadNBytes_error :
  ReadNBytes [Data [x41; x42]; Error; Data [x43]] (replicate 4 x00) 4
  = Some (false, [x41; x42; x00; x00], [Data [x43]]).
Proof. by_compute. Qed.

(** *** The claims about the stream daemon *)

(** C7: a stream of exactly [expected_size * K] bytes, cut into non-empty
    pieces at arbitrary points, makes the serving loop present exactly K
    frames (K swaps), in order, the J-th being the J-th [expected_size]-byte
    slice of the stream; the driver calls of a frame determine its bytes. *)
Theorem C7_stream_yields_frames_in_order
    (K : nat) (stream : list byte) (pieces : list (list byte))
    (buffer : list byte) :
  Z.of_nat (length stream) = expected_size * Z.of_nat K →
  concat pieces = stream →
  Forall (λ p, p ≠ []) pieces →
  Z.of_nat (length buffer) = expected_size →
  ∃ evs buffer',
    serve_client (Data <$> pieces) buffer = Some (evs, buffer')
    ∧ evs = concat (shown <$> slices K stream)
    ∧ swaps evs = K
    ∧ length (slices K stream) = K
    ∧ ∀ J, (J < K)%nat →
        ∃ frame, slices K stream !! J = Some frame
          ∧ frame = take (Z.to_nat expected_size)
                      (drop (J * Z.to_nat expected_size) stream)
          ∧ Z.of_nat (length frame) = expected_size
          ∧ present frame = Some (shown frame)
          ∧ ∀ frame', Z.of_nat (length frame') = expected_size →
                      shown frame' = shown frame → frame' = frame.
Proof.
  intros Hlen Hpieces Hne Hbuf.
  destruct (serve_client_spec (Data <$> pieces) buffer Hbuf) as (buffer' & Hserve & _).
  rewrite <- (app_nil_r (Data <$> pieces)) in Hserve at 2.
  rewrite readable_pieces in Hserve by done. cbn [readable] in Hserve.
  rewrite app_nil_r, Hpieces, (full_slices_exact K) in Hserve by done.
  assert (Forall (λ f, Z.of_nat (length f) = expected_size) (slices K stream))
    as Hframes.
  { apply slices_frame_length. rewrite expected_size_val in *. lia. }
  eexists _, buffer'. split_and!; [exact Hserve|done| | |].
  - by rewrite swaps_frames, slices_length.
  - apply slices_length.
  - intros J HJ. eexists. split_and!; [by apply slices_lookup|done| | |].
    + rewrite Forall_forall in Hframes. apply Hframes.
      eapply list_elem_of_lookup_2. by apply slices_lookup.
    + apply present_shown. rewrite Forall_forall in Hframes. apply Hframes.
      eapply list_elem_of_lookup_2. by apply slices_lookup.
    + intros frame' Hlen' Heq. apply shown_inj; [done| |done].
      rewrite Forall_forall in Hframes. apply Hframes.
      eapply list_elem_of_lookup_2. by apply slices_lookup.
Qed.

Lemma C7_stream_yields_frames_in_order_witness :
  ∃ evs buffer',
    serve_client (Data <$> demo_pieces) initial_buffer = Some (evs, buffer')
    ∧ swaps evs = 2%nat.
Proof.
  destruct (C7_stream_yields_frames_in_order 2 (concat demo_pieces) demo_pieces
              initial_buffer) as (evs & buffer' & H1 & _ & H2 & _).
  - by_compute.
  - reflexivity.
  - repeat constructor; discriminate.
  - by_compute.
  - exists evs, buffer'. split; [exact H1|exact H2].
Defined.

(** C8: for a received frame, the pixel stored at row [y_buf] and column [X]
    of the buffer (row-major, three bytes R, G, B per pixel) is drawn at
    display coordinate (X, LOGICAL_HEIGHT - 1 - y_buf) with its bytes in that
    order, and no other call of the frame draws at that coordinate. *)
Theorem C8_vertical_flip_on_ingest (buffer : list byte) (y_buf X : Z) :
  Z.of_nat (length buffer) = expected_size →
  0 ≤ y_buf < LOGICAL_HEIGHT → 0 ≤ X < LOGICAL_WIDTH →
  ∃ evs r g b,
    present buffer = Some (evs ++ [SwapOnVSync])
    ∧ Z.of_nat (length evs) = LOGICAL_WIDTH * LOGICAL_HEIGHT
    ∧ buffer !! Z.to_nat (3 * (y_buf * LOGICAL_WIDTH + X)) = Some r
    ∧ buffer !! Z.to_nat (3 * (y_buf * LOGICAL_WIDTH + X) + 1) = Some g
    ∧ buffer !! Z.to_nat (3 * (y_buf * LOGICAL_WIDTH + X) + 2) = Some b
    ∧ evs !! Z.to_nat (y_buf * LOGICAL_WIDTH + X)
      = Some (SetPixel X (LOGICAL_HEIGHT - 1 - y_buf) r g b)
    ∧ ∀ k r' g' b',
        evs !! k = Some (SetPixel X (LOGICAL_HEIGHT - 1 - y_buf) r' g' b') →
        k = Z.to_nat (y_buf * LOGICAL_WIDTH + X).
Proof.
  intros Hlen Hy HX.
  destruct (present_spec buffer Hlen) as (evs & Hpres & Hn & Hpix).
  exists evs, (byte_at buffer (3 * (y_buf * LOGICAL_WIDTH + X))),
    (byte_at buffer (3 * (y_buf * LOGICAL_WIDTH + X) + 1)),
    (byte_at buffer (3 * (y_buf * LOGICAL_WIDTH + X) + 2)).
  assert (0 ≤ 3 * (y_buf * LOGICAL_WIDTH + X)
          ∧ 3 * (y_buf * LOGICAL_WIDTH + X) + 2 < Z.of_nat (length buffer)) as Hidx.
  { rewrite Hlen, expected_size_val, LOGICAL_WIDTH_val, LOGICAL_HEIGHT_val in *.
    lia. }
  split_and!; [done|done|by apply lookup_byte_at; lia..| |].
  - by rewrite Hpix.
  - intros k r' g' b' Hk. pose proof (lookup_lt_Some _ _ _ Hk).
    rewrite (present_pixels buffer evs k Hlen Hpres) in Hk by done.
    injection Hk as HX' HY' _ _ _.
    rewrite LOGICAL_WIDTH_val, LOGICAL_HEIGHT_val in *.
    pose proof (Z.div_mod (Z.of_nat k) 256). lia.
Qed.

Lemma C8_vertical_flip_on_ingest_witness :
  ∃ evs r g b,
    present initial_buffer = Some (evs ++ [SwapOnVSync])
    ∧ evs !! Z.to_nat (5 * LOGICAL_WIDTH + 7)
      = Some (SetPixel 7 (LOGICAL_HEIGHT - 1 - 5) r g b).
Proof.
  destruct (C8_vertical_flip_on_ingest initial_buffer 5 7)
    as (evs & r & g & b & H1 & _ & _ & _ & _ & H2 & _).
  - by_compute.
  - by_compute.
  - by_compute.
  - exists evs, r, g, b. split; [exact H1|exact H2].
Defined.

(** C9: a frame arriving in several short reads is read into the same buffer
    until exactly [expected_size] bytes are there; a read of zero bytes or a
    failed read inside a frame makes [ReadNBytes] fail, the serving loop then
    presents nothing of the partial frame and the accept loop goes on with
    the next connection.  In all cases exactly the complete frames received
    before the disconnect are presented. *)
Theorem C9_short_reads_retried_disconnect_discards
    (pieces : list (list byte)) (closing : socket)
    (conns : list accept_result) (buffer : list byte) :
  Forall (λ p, p ≠ []) pieces → disconnects closing →
  Z.of_nat (length buffer) = expected_size →
  let stream := concat pieces in
  let fd := (Data <$> pieces) ++ closing in
  (expected_size ≤ Z.of_nat (length stream) →
   ∃ fd', ReadNBytes fd buffer expected_size
          = Some (true, take (Z.to_nat expected_size) stream, fd'))
  ∧ (Z.of_nat (length stream) < expected_size →
     ∃ fd' buffer',
       buffer' = stream ++ drop (length stream) buffer
       ∧ ReadNBytes fd buffer expected_size = Some (false, buffer', fd')
       ∧ serve_client fd buffer = Some ([], buffer')
       ∧ accept_loop (accept_client fd :: conns) buffer
         = accept_loop conns buffer')
  ∧ ∃ evs buffer',
      serve_client fd buffer = Some (evs, buffer')
      ∧ evs = concat (shown <$> full_slices stream)
      ∧ swaps evs = length (full_slices stream)
      ∧ accept_loop (accept_client fd :: conns) buffer
        = ('(evs', b) ← accept_loop conns buffer'; Some (evs ++ evs', b)).
Proof.
  intros Hne Hclose Hlen stream fd.
  assert (readable fd = stream) as Hstream.
  { unfold fd. rewrite readable_pieces by done.
    rewrite (disconnects_readable closing Hclose). apply app_nil_r. }
  destruct (serve_client_spec fd buffer Hlen) as (buffer1 & Hserve & _).
  rewrite Hstream in Hserve.
  split_and!.
  - intros Hlong. rewrite <- Hstream in Hlong |- *.
    destruct (ReadNBytes_frame fd buffer Hlen Hlong) as (fd' & Hread & _).
    by exists fd'.
  - intros Hshort. rewrite <- Hstream in Hshort |- *.
    destruct (ReadNBytes_short fd buffer Hlen Hshort) as (fd' & Hread).
    assert (serve_client fd buffer
            = Some ([], readable fd ++ drop (length (readable fd)) buffer))
      as Hserve'.
    { rewrite serve_client_eq, Hread. reflexivity. }
    eexists fd', _. split_and!; [reflexivity|exact Hread|exact Hserve'|].
    rewrite (accept_loop_client _ _ _ _ _ Hserve').
    destruct (accept_loop conns _) as [[evs' b]|]; reflexivity.
  - eexists _, buffer1. split_and!; [exact Hserve|reflexivity| |].
    + rewrite swaps_frames; [reflexivity|].
      unfold full_slices. apply slices_frame_length.
      pose proof (Nat.Div0.mul_div_le (length stream) (Z.to_nat expected_size)).
      lia.
    + exact (accept_loop_client _ _ _ _ _ Hserve).
Qed.

Lemma C9_short_reads_retried_disconnect_discards_witness :
  ∃ evs buffer',
    serve_client ((Data <$> [[x41; x42]; [x43]]) ++ [Error]) initial_buffer
    = Some (evs, buffer')
    ∧ evs = concat (shown <$> full_slices (concat [[x41; x42]; [x43]])).
Proof.
  destruct (C9_short_reads_retried_disconnect_discards
              [[x41; x42]; [x43]] [Error] [] initial_buffer)
    as (_ & _ & evs & buffer' & H1 & H2 & _).
  - repeat constructor; discriminate.
  - exact I.
  - by_compute.
  - exists evs, buffer'. split; [exact H1|exact H2].
Defined.

(** *** Further properties of the stream daemon *)

Lemma ReadNBytes_spec fd buf n :
  0 ≤ n < 2 ^ 32 → n ≤ Z.of_nat (length buf) →
  (n ≤ Z.of_nat (length (readable fd)) →
   ∃ fd', ReadNBytes fd buf n
          = Some (true, take (Z.to_nat n) (readable fd)
                        ++ drop (Z.to_nat n) buf, fd')
     ∧ readable fd' = drop (Z.to_nat n) (readable fd))
  ∧ (Z.of_nat (length (readable fd)) < n →
     ∃ fd', ReadNBytes fd buf n
            = Some (false, readable fd
                           ++ drop (length (readable fd)) buf, fd')).
Proof.
  intros Hn Hbuf. unfold ReadNBytes.
  destruct (ReadNBytes_loop_spec fd buf n 0) as [Hok Hfail]; [lia|lia|lia|].
  rewrite Z.sub_0_r in Hok, Hfail.
  change (Z.to_nat 0) with O in Hok, Hfail.
  rewrite take_0 in Hok, Hfail. split.
  - intros Hlong. apply Hok, Hlong.
  - intros Hshort. apply Hfail, Hshort.
Qed.

(** X9: [ReadNBytes(fd, buf, n)] returns true exactly when the socket
    delivers at least [n] bytes before it ends, fails or returns an empty
    read, however the bytes are split over [recv] calls.  It then has
    consumed exactly those [n] bytes, which are the first [n] of [buf]; the
    bytes after them stay queued for the next call. *)
Theorem X9_ReadNBytes_true_iff_n_bytes_arrive
    (fd : socket) (buf : list byte) (n : Z) :
  0 ≤ n < 2 ^ 32 → n ≤ Z.of_nat (length buf) →
  ∃ ok buf' fd',
    ReadNBytes fd buf n = Some (ok, buf', fd')
    ∧ (ok = true ↔ n ≤ Z.of_nat (length (readable fd)))
    ∧ (ok = true →
       take (Z.to_nat n) buf' = take (Z.to_nat n) (readable fd)
       ∧ readable fd' = drop (Z.to_nat n) (readable fd)).
Proof.
  intros Hn Hbuf.
  destruct (ReadNBytes_spec fd buf n Hn Hbuf) as [Hok Hfail].
  destruct (decide (n ≤ Z.of_nat (length (readable fd)))) as [Hlong|Hshort].
  - destruct (Hok Hlong) as (fd' & Hread & Hrest).
    eexists true, _, fd'. split_and!; [exact Hread|done|].
    intros _. split; [|exact Hrest].
    apply take_app_length'. rewrite length_take. lia.
  - destruct Hfail as (fd' & Hread); [lia|].
    eexists false, _, fd'. split_and!; [exact Hread|split; [done|lia]|done].
Qed.

Lemma X9_ReadNBytes_true_iff_n_bytes_arrive_witness :
  ∃ ok buf' fd',
    ReadNBytes [Data [x41; x42; x43]; Data [x44; x45]] (replicate 4 x00) 4
    = Some (ok, buf', fd')
    ∧ (ok = true → readable fd' = [x45]).
Proof.
  destruct (X9_ReadNBytes_true_iff_n_bytes_arrive
              [Data [x41; x42; x43]; Data [x44; x45]] (replicate 4 x00) 4)
    as (ok & buf' & fd' & H1 & _ & H2).
  - by_compute.
  - by_compute.
  - exists ok, buf', fd'. split; [exact H1|].
    intros Hok. exact (proj2 (H2 Hok)).
Defined.

(** X10: [ReadNBytes] never writes outside the first [n] bytes of [buf] and
    keeps the buffer's size.  When it returns false the bytes that did
    arrive are at the front of [buf] and everything after them is what the
    buffer held before the call. *)
Theorem X10_ReadNBytes_writes_only_first_n
    (fd : socket) (buf : list byte) (n : Z) :
  0 ≤ n < 2 ^ 32 → n ≤ Z.of_nat (length buf) →
  ∃ ok buf' fd',
    ReadNBytes fd buf n = Some (ok, buf', fd')
    ∧ length buf' = length buf
    ∧ drop (Z.to_nat n) buf' = drop (Z.to_nat n) buf
    ∧ (ok = false →
       take (length (readable fd)) buf' = readable fd
       ∧ drop (length (readable fd)) buf' = drop (length (readable fd)) buf).
Proof.
  intros Hn Hbuf.
  destruct (ReadNBytes_spec fd buf n Hn Hbuf) as [Hok Hfail].
  destruct (decide (n ≤ Z.of_nat (length (readable fd)))) as [Hlong|Hshort].
  - destruct (Hok Hlong) as (fd' & Hread & _).
    assert (length (take (Z.to_nat n) (readable fd)) = Z.to_nat n) as Htake
      by (rewrite length_take; lia).
    eexists true, _, fd'. split_and!; [exact Hread| | |done].
    + rewrite length_app, Htake, length_drop. lia.
    + by apply drop_app_length'.
  - destruct Hfail as (fd' & Hread); [lia|].
    eexists false, _, fd'. split_and!; [exact Hread| | |].
    + rewrite length_app, length_drop. lia.
    + rewrite drop_app_ge by lia. rewrite drop_drop. f_equal. lia.
    + intros _. split; [apply take_app_length|apply drop_app_length].
Qed.

Lemma X10_ReadNBytes_writes_only_first_n_witness :
  ∃ ok buf' fd',
    ReadNBytes [Data [x41; x42]; Error; Data [x43]] (replicate 6 xff) 4
    = Some (ok, buf', fd')
    ∧ drop (Z.to_nat 4) buf' = drop (Z.to_nat 4) (replicate 6 xff).
Proof.
  destruct (X10_ReadNBytes_writes_only_first_n
              [Data [x41; x42]; Error; Data [x43]] (replicate 6 xff) 4)
    as (ok & buf' & fd' & H1 & _ & H2 & _).
  - by_compute.
  - by_compute.
  - exists ok, buf', fd'. split; [exact H1|exact H2].
Defined.

(** *** The accept loop over any number of connections *)

Lemma frames_of_length conns :
  Forall (λ f, Z.of_nat (length f) = expected_size) (frames_of conns).
Proof.
  induction conns as [|[|fd] conns IH]; cbn [frames_of];
    [apply List.Forall_nil|exact IH|].
  apply Forall_app. split; [|exact IH].
  unfold full_slices. apply slices_frame_length.
  pose proof (Nat.Div0.mul_div_le (length (readable fd))
                (Z.to_nat expected_size)).
  lia.
Qed.

(** X11: over any sequence of connections the daemon displays exactly the
    complete 147456-byte frames of each client's stream, client after client
    in the order the connections were accepted, one swap per frame.  A
    failed [accept], the trailing partial frame of a client and the bytes
    left in the static buffer by an earlier client contribute nothing. *)
Theorem X11_daemon_shows_complete_frames_of_each_client
    (conns : list accept_result) (buffer : list byte) :
  Z.of_nat (length buffer) = expected_size →
  ∃ buffer',
    accept_loop conns buffer
    = Some (concat (shown <$> frames_of conns), buffer')
    ∧ Z.of_nat (length buffer') = expected_size
    ∧ swaps (concat (shown <$> frames_of conns)) = length (frames_of conns).
Proof.
  intros Hlen.
  enough (∃ buffer',
            accept_loop conns buffer
            = Some (concat (shown <$> frames_of conns), buffer')
            ∧ Z.of_nat (length buffer') = expected_size)
    as (buffer' & H1 & H2).
  { exists buffer'. split_and!; [exact H1|exact H2|].
    apply swaps_frames, frames_of_length. }
  revert buffer Hlen.
  induction conns as [|[|fd] conns IH]; intros buffer Hlen;
    cbn [accept_loop frames_of].
  - exists buffer. split; [reflexivity|exact Hlen].
  - apply IH, Hlen.
  - destruct (serve_client_spec fd buffer Hlen) as (buffer1 & -> & Hlen1).
    destruct (IH buffer1 Hlen1) as (buffer2 & Hrest & Hlen2).
    exists buffer2. split; [|exact Hlen2].
    cbn [mbind option_bind]. rewrite Hrest. cbn [mbind option_bind].
    by rewrite fmap_app, concat_app.
Qed.

Lemma X11_daemon_shows_complete_frames_of_each_client_witness :
  ∃ buffer',
    accept_loop [accept_failed; accept_client [Data [x41; x42]; Error];
                 accept_client (Data <$> demo_pieces)] initial_buffer
    = Some (concat (shown <$> frames_of
                      [accept_failed; accept_client [Data [x41; x42]; Error];
                       accept_client (Data <$> demo_pieces)]), buffer').
Proof.
  destruct (X11_daemon_shows_complete_frames_of_each_client
              [accept_failed; accept_client [Data [x41; x42]; Error];
               accept_client (Data <$> demo_pieces)] initial_buffer)
    as (buffer' & H & _).
  - by_compute.
  - exists buffer'. exact H.
Defined.

End MatrixDaemonProofs.

(** ** The two drawing loops *)

Module DrawingProofs.
Import MatrixDaemon MatrixDaemonProofs.

#[local] Arguments expected_size : simpl never.
#[local] Arguments LOGICAL_WIDTH : simpl never.
#[local] Arguments LOGICAL_HEIGHT : simpl never.
#[local] Arguments UdpReceiver.WIDTH : simpl never.
#[local] Arguments UdpReceiver.HEIGHT : simpl never.
#[local] Arguments UdpReceiver.FRAME_BYTES : simpl never.

(** *** The loops side by side *)

Lemma render_row_drop n : ∀ x y p evs p',
  UdpReceiver.render_row n x y p = Some (evs, p') → p' = drop (3 * n) p.
Proof.
  induction n as [|n IH]; intros x y p evs p'; cbn [UdpReceiver.render_row].
  - intros [= _ <-]. reflexivity.
  - destruct p as [|r [|g [|b p0]]]; try done.
    destruct (UdpReceiver.render_row n (x + 1) y p0) as [[evs0 q]|] eqn:Hrow;
      cbn [mbind option_bind]; [|done].
    intros [= _ <-]. apply IH in Hrow as ->.
    replace (3 * S n)%nat with (S (S (S (3 * n)))) by lia. reflexivity.
Qed.

Lemma draw_row_render_row n : ∀ X y idx buffer,
  0 ≤ idx →
  draw_row n X (LOGICAL_HEIGHT - 1 - y) idx buffer =
    match UdpReceiver.render_row n X y (drop (Z.to_nat idx) buffer) with
    | Some (evs, _) => Some (flip_y <$> evs, idx + 3 * Z.of_nat n)
    | None => None
    end.
Proof.
  induction n as [|n IH]; intros X y idx buffer Hidx.
  - cbn [draw_row UdpReceiver.render_row mbind option_bind fmap list_fmap].
    do 2 f_equal. lia.
  - cbn [draw_row UdpReceiver.render_row].
    rewrite (IH (X + 1) y (idx + 3) buffer) by lia.
    assert (buffer !! Z.to_nat idx = drop (Z.to_nat idx) buffer !! O) as ->
      by (rewrite lookup_drop; f_equal; lia).
    assert (buffer !! Z.to_nat (idx + 1) = drop (Z.to_nat idx) buffer !! 1%nat)
      as -> by (rewrite lookup_drop; f_equal; lia).
    assert (buffer !! Z.to_nat (idx + 2) = drop (Z.to_nat idx) buffer !! 2%nat)
      as -> by (rewrite lookup_drop; f_equal; lia).
    assert (drop (Z.to_nat (idx + 3)) buffer
            = drop 3 (drop (Z.to_nat idx) buffer)) as ->
      by (rewrite drop_drop; f_equal; lia).
    destruct (drop (Z.to_nat idx) buffer) as [|r [|g [|b p]]]; try done.
    change (drop 3 (r :: g :: b :: p)) with p.
    cbn [lookup list_lookup mbind option_bind].
    destruct (UdpReceiver.render_row n (X + 1) y p) as [[evs q]|];
      cbn [mbind option_bind fmap list_fmap flip_y]; [|done].
    do 2 f_equal. lia.
Qed.

Lemma draw_rows_render_rows n : ∀ y idx buffer,
  0 ≤ idx →
  draw_rows n y idx buffer =
    fmap (M:=list) flip_y <$> UdpReceiver.render_rows n y (drop (Z.to_nat idx) buffer).
Proof.
  induction n as [|n IH]; intros y idx buffer Hidx; [reflexivity|].
  cbn [draw_rows UdpReceiver.render_rows]. cbv zeta.
  rewrite draw_row_render_row by done.
  change (Z.to_nat UdpReceiver.WIDTH) with (Z.to_nat LOGICAL_WIDTH).
  destruct (UdpReceiver.render_row (Z.to_nat LOGICAL_WIDTH) 0 y
              (drop (Z.to_nat idx) buffer)) as [[row q]|] eqn:Hrow;
    cbn [mbind option_bind fmap option_fmap option_map]; [|done].
  apply render_row_drop in Hrow as ->.
  rewrite IH by lia. rewrite drop_drop.
  replace (Z.to_nat (idx + 3 * Z.of_nat (Z.to_nat LOGICAL_WIDTH)))
    with (Z.to_nat idx + 3 * Z.to_nat LOGICAL_WIDTH)%nat by lia.
  destruct (UdpReceiver.render_rows n (y + 1) _) as [rest|];
    cbn [mbind option_bind fmap option_fmap option_map]; [|done].
  by rewrite fmap_app.
Qed.

Lemma present_flip buffer :
  present buffer = fmap (M:=list) flip_y <$> UdpReceiver.present buffer.
Proof.
  unfold present, UdpReceiver.present.
  rewrite (draw_rows_render_rows _ 0 0 buffer) by lia.
  change (Z.to_nat 0) with O. rewrite drop_0.
  change (Z.to_nat UdpReceiver.HEIGHT) with (Z.to_nat LOGICAL_HEIGHT).
  destruct (UdpReceiver.render_rows _ 0 buffer) as [evs|];
    cbn [mbind option_bind fmap option_fmap option_map]; [|done].
  by rewrite fmap_app.
Qed.

Lemma udp_present_pixels buf :
  Z.of_nat (length buf) = UdpReceiver.FRAME_BYTES →
  ∃ evs, UdpReceiver.present buf = Some (evs ++ [SwapOnVSync])
    ∧ Z.of_nat (length evs) = UdpReceiver.WIDTH * UdpReceiver.HEIGHT
    ∧ ∀ k : nat, (k < length evs)%nat →
        evs !! k = Some (pixel buf (Z.of_nat k `mod` UdpReceiver.WIDTH)
                           (Z.of_nat k `div` UdpReceiver.WIDTH)
                           (3 * Z.of_nat k)).
Proof.
  intros Hlen.
  assert (Z.of_nat (length buf) = expected_size) as Hlen' by exact Hlen.
  destruct (present_spec buf Hlen') as (evsD & HD & HlenD & _).
  pose proof (present_flip buf) as Hflip. rewrite HD in Hflip.
  unfold UdpReceiver.present in Hflip |- *.
  destruct (UdpReceiver.render_rows _ 0 buf) as [evs|];
    cbn [mbind option_bind fmap option_fmap option_map] in Hflip |- *;
    [|done].
  injection Hflip as Hflip. rewrite fmap_app in Hflip.
  apply app_inj_tail in Hflip as [Hflip _].
  assert (length evs = length evsD) as Hl by (by rewrite Hflip, length_fmap).
  exists evs. split_and!; [reflexivity|rewrite Hl; exact HlenD|].
  intros k Hk.
  pose proof (present_pixels buf evsD k Hlen' HD) as Hpix.
  rewrite Hflip, list_lookup_fmap, length_fmap in Hpix.
  destruct (evs !! k) as [[x y r g b|]|] eqn:He.
  - specialize (Hpix ltac:(lia)). cbn [fmap option_fmap option_map flip_y] in Hpix.
    unfold pixel in Hpix |- *. injection Hpix as -> Hy -> -> ->.
    change UdpReceiver.WIDTH with LOGICAL_WIDTH.
    replace y with (Z.of_nat k `div` LOGICAL_WIDTH) by lia. reflexivity.
  - specialize (Hpix ltac:(lia)). discriminate Hpix.
  - apply lookup_ge_None in He. lia.
Qed.

(** X12: the datagram receiver draws a completed frame unflipped: the pixel
    stored at row [y], column [x] of the frame buffer, bytes
    [3 * (y * WIDTH + x)] onwards, is drawn at display position [(x, y)],
    every position of the 256x192 display is drawn exactly once, and the swap
    comes last. *)
Theorem X12_receiver_draws_frame_unflipped (buf : list byte) (x y : Z) :
  Z.of_nat (length buf) = UdpReceiver.FRAME_BYTES →
  0 ≤ y < UdpReceiver.HEIGHT → 0 ≤ x < UdpReceiver.WIDTH →
  ∃ evs r g b,
    UdpReceiver.present buf = Some (evs ++ [SwapOnVSync])
    ∧ Z.of_nat (length evs) = UdpReceiver.WIDTH * UdpReceiver.HEIGHT
    ∧ buf !! Z.to_nat (3 * (y * UdpReceiver.WIDTH + x)) = Some r
    ∧ buf !! Z.to_nat (3 * (y * UdpReceiver.WIDTH + x) + 1) = Some g
    ∧ buf !! Z.to_nat (3 * (y * UdpReceiver.WIDTH + x) + 2) = Some b
    ∧ evs !! Z.to_nat (y * UdpReceiver.WIDTH + x) = Some (SetPixel x y r g b)
    ∧ ∀ k r' g' b',
        evs !! k = Some (SetPixel x y r' g' b') →
        k = Z.to_nat (y * UdpReceiver.WIDTH + x).
Proof.
  intros Hlen Hy Hx.
  destruct (udp_present_pixels buf Hlen) as (evs & Hp & Hl & Hpix).
  assert (UdpReceiver.WIDTH = 256) as HW by reflexivity.
  assert (UdpReceiver.HEIGHT = 192) as HH by reflexivity.
  assert (UdpReceiver.FRAME_BYTES = 147456) as HF by reflexivity.
  rewrite HW in *. rewrite HH in *. rewrite HF in *.
  set (i := 3 * (y * 256 + x)).
  exists evs, (byte_at buf i), (byte_at buf (i + 1)), (byte_at buf (i + 2)).
  split_and!.
  - exact Hp.
  - exact Hl.
  - apply lookup_byte_at. unfold i. lia.
  - apply lookup_byte_at. unfold i. lia.
  - apply lookup_byte_at. unfold i. lia.
  - rewrite Hpix by lia. f_equal.
    replace (Z.of_nat (Z.to_nat (y * 256 + x))) with (x + y * 256) by lia.
    rewrite Z.mod_add, Z.div_add, Z.mod_small, Z.div_small by lia.
    apply pixel_ext; unfold i; lia.
  - intros k r' g' b' Hk.
    assert (k < length evs)%nat as Hlt by (by eapply lookup_lt_Some).
    rewrite Hpix in Hk by exact Hlt. unfold pixel in Hk.
    injection Hk as Hkx Hky _ _ _.
    pose proof (Z.div_mod (Z.of_nat k) 256). lia.
Qed.

Lemma X12_receiver_draws_frame_unflipped_witness :
  ∃ evs r g b,
    UdpReceiver.present UdpReceiver.frame_ff = Some (evs ++ [SwapOnVSync])
    ∧ evs !! Z.to_nat (5 * UdpReceiver.WIDTH + 7) = Some (SetPixel 7 5 r g b).
Proof.
  destruct (X12_receiver_draws_frame_unflipped UdpReceiver.frame_ff 7 5)
    as (evs & r & g & b & H1 & _ & _ & _ & _ & H2 & _).
  - by_compute.
  - by_compute.
  - by_compute.
  - exists evs, r, g, b. split; [exact H1|exact H2].
Defined.

(** X13: on the same frame bytes the stream daemon makes the driver calls of
    the datagram receiver, in the same order, with every row [y] drawn at
    [LOGICAL_HEIGHT - 1 - y]: the two transports show the same picture
    upside down from each other.  For a buffer too short to draw, both
    fail. *)
Theorem X13_daemon_draws_receiver_picture_flipped (buffer : list byte) :
  present buffer = fmap (M:=list) flip_y <$> UdpReceiver.present buffer.
Proof. exact (present_flip buffer). Qed.

End DrawingProofs.

(** ** The clock helper *)

Module ClockProofs.
Import Clock.

Lemma NowMicros_normal tv :
  normal tv → NowMicros tv = tv_sec tv * 1000000 + tv_usec tv.
Proof.
  intros (Hs & Hu & Hfit). unfold NowMicros, uint64_t.
  rewrite (Z.mod_small (tv_sec tv)) by lia.
  rewrite (Z.mod_small (tv_sec tv * 1000000)) by lia.
  rewrite (Z.mod_small (tv_usec tv)) by lia.
  apply Z.mod_small. lia.
Qed.

(** X16: for a time of day with microseconds below one second and with
    seconds that fit, [NowMicros] is the exact count of microseconds, without
    wrap-around: seconds and microseconds can be read back from it, and it
    orders any two such times as the clock does. *)
Theorem X16_NowMicros_exact_and_monotone (tv1 tv2 : timeval) :
  normal tv1 → normal tv2 →
  NowMicros tv1 `div` 1000000 = tv_sec tv1
  ∧ NowMicros tv1 `mod` 1000000 = tv_usec tv1
  ∧ (NowMicros tv1 < NowMicros tv2 ↔ before tv1 tv2)
  ∧ (NowMicros tv1 = NowMicros tv2 → tv1 = tv2).
Proof.
  intros H1 H2.
  rewrite (NowMicros_normal tv1 H1), (NowMicros_normal tv2 H2).
  destruct H1 as (Hs1 & Hu1 & _), H2 as (Hs2 & Hu2 & _).
  unfold before. split_and!.
  - rewrite Z.div_add_l by lia. rewrite Z.div_small by lia. lia.
  - rewrite Z.add_comm, Z.mod_add by lia. apply Z.mod_small. lia.
  - lia.
  - destruct tv1, tv2. cbn in *. intros Heq.
    assert (tv_sec0 = tv_sec1) as -> by lia.
    assert (tv_usec0 = tv_usec1) as -> by lia. reflexivity.
Qed.

Lemma X16_NowMicros_exact_and_monotone_witness :
  NowMicros {| tv_sec := 1700000000; tv_usec := 999999 |}
  < NowMicros {| tv_sec := 1700000001; tv_usec := 0 |}.
Proof.
  destruct (X16_NowMicros_exact_and_monotone
              {| tv_sec := 1700000000; tv_usec := 999999 |}
              {| tv_sec := 1700000001; tv_usec := 0 |})
    as (_ & _ & H & _).
  - by_compute.
  - by_compute.
  - apply H. left. by_compute.
Defined.

End ClockProofs.

(** ** The panel test pattern *)

Module PanelTestProofs.
Import PanelTest.

Lemma for_loop_length m body :
  (∀ i, length (body i) = m) →
  ∀ n i, length (for_loop n i body) = (n * m)%nat.
Proof.
  intros Hm n. induction n as [|n IH]; intros i; cbn [for_loop]; [done|].
  rewrite length_app, Hm, IH. lia.
Qed.

Lemma for_loop_lookup m body :
  (∀ i, length (body i) = m) →
  ∀ n i (j r : nat), (j < n)%nat → (r < m)%nat →
    for_loop n i body !! (j * m + r)%nat = body (i + Z.of_nat j) !! r.
Proof.
  intros Hm n. induction n as [|n IH]; intros i j r Hj Hr; [lia|].
  cbn [for_loop]. destruct j as [|j].
  - rewrite lookup_app_l by (rewrite Hm; lia).
    replace (i + Z.of_nat 0) with i by lia. reflexivity.
  - rewrite lookup_app_r by (rewrite Hm; lia). rewrite Hm.
    replace (S j * m + r - m)%nat with (j * m + r)%nat by lia.
    rewrite IH by lia. f_equal. f_equal. lia.
Qed.

(** The pixel rows of one panel. *)
Lemma panel_rows_length x0 y0 r g b y :
  length (for_loop (Z.to_nat panel_w) 0
            (λ x, [CanvasSetPixel (x0 + x) (y0 + y) r g b])) = 64%nat.
Proof. by rewrite (for_loop_length 1). Qed.

Lemma panel_length x0 y0 r g b :
  length (for_loop (Z.to_nat panel_h) 0 (λ y,
            for_loop (Z.to_nat panel_w) 0
              (λ x, [CanvasSetPixel (x0 + x) (y0 + y) r g b])))
  = (64 * 64)%nat.
Proof.
  rewrite (for_loop_length 64); [done|]. intros y. apply panel_rows_length.
Qed.

(** The calls of [DrawPanels] after the [Fill], by panel, row and column. *)
Lemma DrawPanels_pixels :
  ∃ pix, DrawPanels = CanvasFill 0 0 0 :: pix
    ∧ Z.of_nat (length pix) = 49152
    ∧ ∀ row col y x : Z,
        0 ≤ row < 3 → 0 ≤ col < 4 → 0 ≤ y < 64 → 0 ≤ x < 64 →
        pix !! Z.to_nat (((row * 4 + col) * 64 + y) * 64 + x)
        = Some (CanvasSetPixel (col * 64 + x) (row * 64 + y) 0 0 255).
Proof.
  eexists. split; [reflexivity|].
  set (panel := λ row col : Z,
         let idx := row * grid_cols + col in
         let '(r, g, b) := PanelColor 2 in
         let x0 := col * panel_w in
         let y0 := row * panel_h in
         for_loop (Z.to_nat panel_h) 0 (λ y,
           for_loop (Z.to_nat panel_w) 0 (λ x,
             [CanvasSetPixel (x0 + x) (y0 + y) r g b]))).
  assert (∀ row col, length (panel row col) = (64 * 64)%nat) as Hpanel
    by (intros; apply panel_length).
  assert (∀ row, length (for_loop (Z.to_nat grid_cols) 0 (panel row))
                 = (4 * (64 * 64))%nat) as Hrow.
  { intros row. by rewrite (for_loop_length (64 * 64)). }
  assert (Z.to_nat grid_rows = 3%nat) as Hgr by reflexivity.
  assert (Z.to_nat grid_cols = 4%nat) as Hgc by reflexivity.
  assert (Z.to_nat panel_h = 64%nat) as Hph by reflexivity.
  assert (Z.to_nat panel_w = 64%nat) as Hpw by reflexivity.
  split.
  - rewrite (for_loop_length (4 * (64 * 64))) by exact Hrow. lia.
  - intros row col y x Hr Hc Hy Hx.
    replace (Z.to_nat (((row * 4 + col) * 64 + y) * 64 + x))
      with (Z.to_nat row * (4 * (64 * 64))
            + (Z.to_nat col * (64 * 64)
               + (Z.to_nat y * 64 + (Z.to_nat x * 1 + 0))))%nat by lia.
    rewrite (for_loop_lookup (4 * (64 * 64))) by (exact Hrow || lia).
    rewrite (for_loop_lookup (64 * 64)) by (apply Hpanel || lia).
    unfold panel. cbn [PanelColor]. cbv zeta.
    rewrite (for_loop_lookup 64);
      [|intros; apply panel_rows_length|lia|lia].
    rewrite (for_loop_lookup 1) by (done || lia).
    cbn [lookup list_lookup]. unfold panel_w, panel_h.
    do 2 f_equal; lia.
Qed.

Lemma panel_coordinates K :
  0 ≤ K < 49152 →
  ∃ row col y x : Z,
    0 ≤ row < 3 ∧ 0 ≤ col < 4 ∧ 0 ≤ y < 64 ∧ 0 ≤ x < 64
    ∧ K = ((row * 4 + col) * 64 + y) * 64 + x.
Proof.
  intros HK.
  exists (K `div` 16384), ((K `div` 4096) `mod` 4), ((K `div` 64) `mod` 64),
         (K `mod` 64).
  Z.div_mod_to_equations. lia.
Qed.

(** X14: [PanelColor] gives the twelve panel indices 0..11 twelve different
    colours, none of them black, and gives black for every other index. *)
Theorem X14_PanelColor_distinct_per_panel (i j : Z) :
  (0 ≤ i < 12 → 0 ≤ j < 12 → PanelColor i = PanelColor j → i = j)
  ∧ (0 ≤ i < 12 → PanelColor i ≠ (0, 0, 0))
  ∧ (¬ 0 ≤ i < 12 → PanelColor i = (0, 0, 0)).
Proof.
  split_and!.
  - intros Hi Hj.
    assert (i = 0 ∨ i = 1 ∨ i = 2 ∨ i = 3 ∨ i = 4 ∨ i = 5 ∨ i = 6 ∨ i = 7
            ∨ i = 8 ∨ i = 9 ∨ i = 10 ∨ i = 11) as Hi' by lia.
    assert (j = 0 ∨ j = 1 ∨ j = 2 ∨ j = 3 ∨ j = 4 ∨ j = 5 ∨ j = 6 ∨ j = 7
            ∨ j = 8 ∨ j = 9 ∨ j = 10 ∨ j = 11) as Hj' by lia.
    clear Hi Hj.
    repeat (destruct Hi' as [->|Hi']); [..|subst i];
      repeat (destruct Hj' as [->|Hj']); try subst j;
      cbn [PanelColor]; intros Heq;
      first [reflexivity | discriminate Heq].
  - intros Hi.
    assert (i = 0 ∨ i = 1 ∨ i = 2 ∨ i = 3 ∨ i = 4 ∨ i = 5 ∨ i = 6 ∨ i = 7
            ∨ i = 8 ∨ i = 9 ∨ i = 10 ∨ i = 11) as Hi' by lia.
    clear Hi.
    repeat (destruct Hi' as [->|Hi']); try subst i; discriminate.
  - intros Hi. destruct i as [|p|p]; [lia| |reflexivity].
    do 4 (try destruct p as [p|p|]); first [reflexivity | lia].
Qed.

Lemma X14_PanelColor_distinct_per_panel_witness :
  PanelColor 2 ≠ (0, 0, 0) ∧ PanelColor 12 = (0, 0, 0).
Proof.
  destruct (X14_PanelColor_distinct_per_panel 2 2) as (_ & H2 & _).
  destruct (X14_PanelColor_distinct_per_panel 12 12) as (_ & _ & H12).
  split; [apply H2; lia|apply H12; lia].
Defined.

(** X15: [DrawPanels] clears the canvas and then sets every pixel of the
    256x192 display exactly once, and never a position outside it.  All
    twelve panels get the colour of [PanelColor(2)], blue: the panel index
    [idx] is computed but not used. *)
Theorem X15_DrawPanels_paints_every_pixel_blue :
  ∃ pix,
    DrawPanels = CanvasFill 0 0 0 :: pix
    ∧ Z.of_nat (length pix) = 256 * 192
    ∧ (∀ k c, pix !! k = Some c →
         ∃ x y, 0 ≤ x < 256 ∧ 0 ≤ y < 192 ∧ c = CanvasSetPixel x y 0 0 255)
    ∧ (∀ x y, 0 ≤ x < 256 → 0 ≤ y < 192 →
         ∃ k, pix !! k = Some (CanvasSetPixel x y 0 0 255)
           ∧ ∀ k', pix !! k' = Some (CanvasSetPixel x y 0 0 255) → k' = k).
Proof.
  destruct DrawPanels_pixels as (pix & Hdraw & Hlen & Hpix).
  assert (∀ k c, pix !! k = Some c →
            ∃ row col y x : Z,
              0 ≤ row < 3 ∧ 0 ≤ col < 4 ∧ 0 ≤ y < 64 ∧ 0 ≤ x < 64
              ∧ Z.of_nat k = ((row * 4 + col) * 64 + y) * 64 + x
              ∧ c = CanvasSetPixel (col * 64 + x) (row * 64 + y) 0 0 255)
    as Hall.
  { intros k c Hk.
    assert (k < length pix)%nat as Hlt by (by eapply lookup_lt_Some).
    destruct (panel_coordinates (Z.of_nat k)) as (row & col & y & x & Hr & Hc
                                                  & Hy & Hx & HK); [lia|].
    specialize (Hpix row col y x Hr Hc Hy Hx).
    rewrite <- HK, Nat2Z.id in Hpix.
    exists row, col, y, x. split_and!; [lia..|congruence]. }
  exists pix. split_and!; [exact Hdraw|lia| |].
  - intros k c Hk.
    destruct (Hall k c Hk) as (row & col & y & x & ? & ? & ? & ? & _ & ->).
    exists (col * 64 + x), (row * 64 + y). split_and!; [lia..|reflexivity].
  - intros x y Hx Hy.
    exists (Z.to_nat ((((y `div` 64) * 4 + (x `div` 64)) * 64 + (y `mod` 64)) * 64
                      + (x `mod` 64))).
    split.
    + rewrite Hpix by (Z.div_mod_to_equations; lia).
      do 2 f_equal; Z.div_mod_to_equations; lia.
    + intros k' Hk'.
      destruct (Hall k' _ Hk')
        as (row & col & y' & x' & ? & ? & ? & ? & HK & [= Hxx Hyy]).
      Z.div_mod_to_equations. lia.
Qed.

End PanelTestProofs.
